(** * waterz: the agglomeration frontend (frontend_agglomerate.h / .cpp)

    A shallow embedding of the C++ frontend: the anti-merge constraint
    tracker [UnmergeTracker], the process-wide context registry
    [WaterzContext], and the entry points [initialize], [mergeUntil]
    and [free].  Unordered maps and the registry are finite maps; ids are
    unsigned 64-bit words used only as keys and for equality, so they are
    numbers in [N]; reads that C++ leaves undefined are explicit faults. *)

From stdpp Require Import gmap list numbers option.

Local Open Scope N_scope.
#[local] Set Warnings "-clear-no-such-hyp".


(** ** Outcomes of fallible code *)

(** What the C++ standard leaves undefined, and what the model cannot
    finish, is an explicit fault rather than an arbitrary value. *)
Inductive fault : Type :=
  | NullDeref        (* reading through a null pointer *)
  | OutOfRange       (* indexing past the end of an array or vector *)
  | SignedOverflow   (* incrementing an int at INT_MAX *)
  | OutOfFuel.       (* the loop bound of the model was reached *)

Inductive result (A : Type) : Type :=
  | Ok (a : A)
  | Fault (f : fault).

Arguments Ok {A} a.
Arguments Fault {A} f.

#[global] Instance result_ret : MRet result := fun A a => Ok a.
#[global] Instance result_bind : MBind result := fun A B k r =>
  match r with
  | Ok a => k a
  | Fault f => Fault f
  end.

Definition is_Ok {A} (r : result A) : Prop := exists a, r = Ok a.

(** ** The unmerge tracker *)

Module UnmergeTracker.

(** The private members of the class. *)
Record t : Type := mk {
  _segid_to_groupid_list : gmap N (list N);
  _groupid_to_anti_list : gmap N (list N);
  _is_empty : bool
}.

(** [m[k].push_back(x)] on an unordered map of vectors: [operator[]]
    creates an empty vector for a missing key. *)
Definition push_back_at (m : gmap N (list N)) (k x : N) : gmap N (list N) :=
  <[k := default [] (m !! k) ++ [x]]> m.

(** [auto& l = m[k]; l.insert(end(l), begin(xs), end(xs))]. *)
Definition extend_at (m : gmap N (list N)) (k : N) (xs : list N) : gmap N (list N) :=
  <[k := default [] (m !! k) ++ xs]> m.

(** The innermost constructor loop: every segid of a coherent group is
    tagged with the group id. *)
Definition tag_segids (groupid : N) (segid_list : list N)
    (seg : gmap N (list N)) : gmap N (list N) :=
  foldl (fun m segid => push_back_at m segid groupid) seg segid_list.

(** The loop over the coherent groups of one tuple.  [segid_list[0]] on an
    empty vector reads out of range. *)
Fixpoint collect_groups (tuple : list (list N)) (mutex_group_id_list : list N)
    (seg : gmap N (list N)) : result (list N * gmap N (list N)) :=
  match tuple with
  | [] => Ok (mutex_group_id_list, seg)
  | segid_list :: rest =>
      match segid_list with
      | [] => Fault OutOfRange
      | groupid :: _ =>
          collect_groups rest (mutex_group_id_list ++ [groupid])
            (tag_segids groupid segid_list seg)
      end
  end.

(** [others]: the members of the mutex list that differ from [groupid]. *)
Definition others_of (mutex_group_id_list : list N) (groupid : N) : list N :=
  filter (fun other => other ≠ groupid) mutex_group_id_list.

(** The second loop of a tuple, run over a suffix [l] of the mutex list. *)
Definition link_antis_from (mutex_group_id_list l : list N)
    (anti : gmap N (list N)) : gmap N (list N) :=
  foldl (fun m groupid => extend_at m groupid (others_of mutex_group_id_list groupid))
        anti l.

Definition link_antis (mutex_group_id_list : list N)
    (anti : gmap N (list N)) : gmap N (list N) :=
  link_antis_from mutex_group_id_list mutex_group_id_list anti.

(** The outer loop over the tuples of the input list. *)
Fixpoint build (input_list : list (list (list N)))
    (seg anti : gmap N (list N)) : result (gmap N (list N) * gmap N (list N)) :=
  match input_list with
  | [] => Ok (seg, anti)
  | anti_group_list_tuple :: rest =>
      '(mutex_group_id_list, seg') ← collect_groups anti_group_list_tuple [] seg;
      build rest seg' (link_antis mutex_group_id_list anti)
  end.

(** [UnmergeTracker::UnmergeTracker(input_list)]. *)
Definition new (input_list : list (list (list N))) : result t :=
  match input_list with
  | [] => Ok (mk ∅ ∅ true)
  | _ =>
      '(seg, anti) ← build input_list ∅ ∅;
      Ok (mk seg anti false)
  end.

(** [getGroupIDs(segid, &ret)]: [ret] is overwritten only when the key is
    present. *)
Definition getGroupIDs (tr : t) (segid : N) (ret : list N) : list N :=
  match _segid_to_groupid_list tr !! segid with
  | Some l => l
  | None => ret
  end.

(** [getAntiGroupIDs(segid, &ret)], same convention. *)
Definition getAntiGroupIDs (tr : t) (segid : N) (ret : list N) : list N :=
  match _groupid_to_anti_list tr !! segid with
  | Some l => l
  | None => ret
  end.

(** The nested loops of [isValidMerge].  [anti_groups_a] is declared
    outside the outer loop, so what it held for the previous [group_a]
    survives when the next one has no entry. *)
Fixpoint scan_groups (tr : t) (groups_a groups_b anti_groups_a : list N) : bool :=
  match groups_a with
  | [] => true
  | group_a :: rest =>
      let anti_groups_a := getAntiGroupIDs tr group_a anti_groups_a in
      if existsb (fun group_b =>
            existsb (fun anti_group_a => bool_decide (anti_group_a = group_b))
                    anti_groups_a) groups_b
      then false
      else scan_groups tr rest groups_b anti_groups_a
  end.

(** [UnmergeTracker::isValidMerge(a, b)]. *)
Definition isValidMerge (tr : t) (a b : N) : bool :=
  if _is_empty tr then true
  else
    let groups_a := getGroupIDs tr a [] in
    let groups_b := getGroupIDs tr b [] in
    scan_groups tr groups_a groups_b [].

(** [UnmergeTracker::onMerge(a, b, c)].  The assertion [c == a || c == b]
    is a precondition of the callers; it does not change the state. *)
Definition onMerge (tr : t) (a b c : N) : t :=
  if _is_empty tr then tr
  else
    let groups_a := getGroupIDs tr a [] in
    let groups_b := getGroupIDs tr b [] in
    let groups_a := groups_a ++ groups_b in
    if bool_decide (groups_a = []) then tr
    else mk (<[c := groups_a]> (_segid_to_groupid_list tr))
            (_groupid_to_anti_list tr) (_is_empty tr).

(** The group list of a seg id and the anti-partners of a group id, as a
    caller with fresh empty vectors sees them. *)
Definition groups (tr : t) (segid : N) : list N := getGroupIDs tr segid [].
Definition antis (tr : t) (groupid : N) : list N := getAntiGroupIDs tr groupid [].

(** Tracker states that the class can be in: built by the constructor,
    then changed by [onMerge] only. *)
Inductive reachable : t -> Prop :=
  | reachable_new input_list tr :
      new input_list = Ok tr -> reachable tr
  | reachable_onMerge tr a b c :
      reachable tr -> reachable (onMerge tr a b c).

(** The invariant behind the claims about [isValidMerge]: the anti lists
    are symmetric, and a tracker flagged empty has an empty group map. *)
Record wf (tr : t) : Prop := {
  wf_sym : forall g h, h ∈ antis tr g -> g ∈ antis tr h;
  wf_empty : _is_empty tr = true -> _segid_to_groupid_list tr = ∅
}.

(** The claim about the anti lists, read literally: within a tuple, the
    anti list of the group id of the group at one position holds the group
    id of the group at every other position. *)
Definition every_pair_linked (input_list : list (list (list N))) (tr : t) : Prop :=
  forall tuple (i j : nat) G G' g g',
    tuple ∈ input_list ->
    tuple !! i = Some G -> tuple !! j = Some G' -> i ≠ j ->
    head G = Some g -> head G' = Some g' ->
    g' ∈ antis tr g.

(** The same, for the pairs whose group ids differ. *)
Definition distinct_pairs_linked (input_list : list (list (list N))) (tr : t) : Prop :=
  forall tuple (i j : nat) G G' g g',
    tuple ∈ input_list ->
    tuple !! i = Some G -> tuple !! j = Some G' -> i ≠ j ->
    head G = Some g -> head G' = Some g' -> g' ≠ g ->
    g' ∈ antis tr g.

(** Some group of [a] has an anti-partner among the groups of [b]. *)
Definition conflict (tr : t) (a b : N) : Prop :=
  exists g h, g ∈ groups tr a ∧ h ∈ antis tr g ∧ h ∈ groups tr b.

End UnmergeTracker.


(** ** The backend the frontend is instantiated with *)

(** [struct Merge]: one entry of the merge history.  The score type is
    the backend's. *)
Module Merge.
Record t (S : Type) : Type := mk { a : N; b : N; c : N; score : S }.
Arguments mk {S} a b c score.
Arguments a {S} _.
Arguments b {S} _.
Arguments c {S} _.
Arguments score {S} _.
End Merge.

(** What the frontend takes from headers outside its two files: the value
    types ([float] and [double] in the source, kept abstract here), the
    state behind the shared pointers [regionGraph], [statisticsProvider],
    [scoringFunction] and [regionMerging], which refer to each other and
    are one value here, and the operations called on them. *)
Class Backend : Type := {
  AffValue : Type;
  ScoreValue : Type;
  Metrics : Type;
  RegionMerging : Type;
  (* watershed(affinities, low, high, segmentation, sizes): the new
     contents of the segmentation volume and the sizes array *)
  watershed : N * N * N -> list AffValue -> AffValue -> AffValue ->
              list N -> list N * list N;
  (* RegionGraphType(numNodes), get_region_graph(affinities, segmentation,
     numNodes - 1, ...) and the constructors of the provider, the scoring
     function and the engine *)
  new_region_merging : N * N * N -> list AffValue -> list N -> N -> N ->
                       RegionMerging;
  (* regionMerging->mergeUntil(scoringFunction, statisticsProvider,
     threshold, visitor), a template over the visitor: the number of
     merges, the visitor and the engine afterwards *)
  engine_mergeUntil : forall V : Type,
      (V -> N -> N -> bool) -> (V -> N -> N -> N -> ScoreValue -> V) ->
      RegionMerging -> ScoreValue -> V -> result (nat * V * RegionMerging);
  (* regionMerging->extractSegmentation(segmentation) *)
  extractSegmentation : RegionMerging -> list N -> list N;
  (* compare_volumes(groundtruth, segmentation) *)
  compare_volumes : list N -> list N -> Metrics
}.

Arguments engine_mergeUntil {_ V} _ _ _ _ _.

(** Modelled from the spec: the contract of the engine's [mergeUntil]
    towards its visitor (section 4.5, step 9): it calls [onMerge] once for
    every merge it counts, so a count kept by the visitor grows by the
    number returned.  The engine itself is declared in a backend header
    that is not part of the two frontend files. *)
Definition counts_merges (B : Backend) : Prop :=
  forall (V : Type) (isValid : V -> N -> N -> bool)
         (onMerge : V -> N -> N -> N -> ScoreValue -> V) (count : V -> nat),
    (forall v a b c s, count (onMerge v a b c s) = S (count v)) ->
    forall rm threshold v n v' rm',
      engine_mergeUntil isValid onMerge rm threshold v = Ok (n, v', rm') ->
      count v' = (count v + n)%nat.

(** ** The context registry *)

(** [volume_ref<SegID>]: a view, without copy, of an array owned by the
    caller: where it starts and how many elements it spans. *)
Record volume_ref : Type := mkVolume { data : N; num_elements : N }.

Module WaterzContext.
Section Registry.
Context `{B : Backend}.

(** The members of a context.  The shared pointers are null until
    [initialize] assigns them; [regionMerging] stands for the region
    graph, the statistics provider, the scoring function and the merging
    engine, which are one value of the backend.  The ground truth is only
    ever read and is kept by value. *)
Record t : Type := mk {
  id : Z;
  regionMerging : option RegionMerging;
  segmentation : option volume_ref;
  groundtruth : option (list N);
  unmergeList : list (list (list N))
}.

(** The static members [_contexts] and [_nextId]. *)
Record statics : Type := mkStatics {
  _contexts : gmap Z t;
  _nextId : Z
}.

Definition INT_MAX : Z := (2 ^ 31 - 1)%Z.

(** [std::map<int, WaterzContext*> _contexts; int _nextId = 0]. *)
Definition initial : statics := mkStatics ∅ 0%Z.

(** [createNew()]: the new context gets the next id; [std::map::insert]
    leaves the map alone when the key is taken, and then the new context
    is not the registered one.  The result tells whether it is. *)
Definition createNew (r : statics) : result (Z * bool * statics) :=
  let context_id := _nextId r in
  if bool_decide (context_id = INT_MAX) then Fault SignedOverflow
  else
    let registered := bool_decide (_contexts r !! context_id = None) in
    Ok (context_id, registered,
        mkStatics
          (if registered
           then <[context_id := mk context_id None None None []]> (_contexts r)
           else _contexts r)
          (context_id + 1)%Z).

(** [get(id)]: [None] is the null pointer. *)
Definition get (r : statics) (context_id : Z) : option t :=
  _contexts r !! context_id.

(** [free(id)]: erase and delete, only when [get] finds the context. *)
Definition free (r : statics) (context_id : Z) : statics :=
  match get r context_id with
  | Some _ => mkStatics (delete context_id (_contexts r)) (_nextId r)
  | None => r
  end.

(** The ids that [createNew] has handed out so far. *)
Definition issued (r : statics) (context_id : Z) : Prop :=
  (0 ≤ context_id < _nextId r)%Z.

(** The registry as [createNew] and [free] keep it: the counter never
    went below its start, and every registered context sits under an id
    that was handed out. *)
Definition registry_ok (r : statics) : Prop :=
  (0 ≤ _nextId r)%Z ∧
  map_Forall (fun k (_ : t) => (0 ≤ k < _nextId r)%Z) (_contexts r).
End Registry.
End WaterzContext.

(** ** The frontend *)

Section Frontend.
Context `{B : Backend}.

(** [struct WaterzState].  [initialize] leaves [metrics] unset. *)
Record WaterzState : Type := mkState {
  context : Z;
  metrics : option Metrics
}.

(** What a call can see and change: the registry and the [SegID] arrays
    of the caller, by address. *)
Record World : Type := mkWorld {
  registry : WaterzContext.statics;
  heap : gmap N (list N)
}.

(** [size_t] arithmetic is modulo 2^64. *)
Definition SIZE_MOD : N := 2 ^ 64.

Definition deref {A} (p : option A) : result A :=
  match p with
  | Some x => Ok x
  | None => Fault NullDeref
  end.

(** The elements a volume spans; the array must be there and long
    enough. *)
Definition read_volume (h : gmap N (list N)) (vol : volume_ref) : result (list N) :=
  match h !! data vol with
  | Some l =>
      if bool_decide (N.to_nat (num_elements vol) ≤ length l)%nat
      then Ok (take (N.to_nat (num_elements vol)) l)
      else Fault OutOfRange
  | None => Fault OutOfRange
  end.

(** Writing the elements of a volume in place. *)
Definition write_volume (h : gmap N (list N)) (vol : volume_ref)
    (voxels : list N) : gmap N (list N) :=
  match h !! data vol with
  | Some l => <[data vol := voxels ++ drop (length voxels) l]> h
  | None => h
  end.

(** [*std::max_element(first, last)] on a non-empty range. *)
Definition max_element (x : N) (xs : list N) : N := foldl N.max x xs.

(** [sizes[segid]++]. *)
Definition bump (sizes : result (list N)) (segid : N) : result (list N) :=
  sizes ← sizes;
  match sizes !! N.to_nat segid with
  | Some count => Ok (<[N.to_nat segid := (count + 1) mod SIZE_MOD]> sizes)
  | None => Fault OutOfRange
  end.

(** The branch of [initialize] for a segmentation supplied by the caller:
    [buffer] is the caller's array and [voxels] are its first [num_voxels]
    elements.  On a volume of no voxels [max_element] returns its first
    argument, the start of the array, and element 0 of the array is read
    as the maximum although it is not part of the volume; only an array
    without any element makes that read go out of range. *)
Definition count_sizes (buffer voxels : list N) : result (list N) :=
  maxId ← match voxels with
          | x :: xs => Ok (max_element x xs)
          | [] =>
              match buffer with
              | x :: _ => Ok x
              | [] => Fault OutOfRange
              end
          end;
  foldl bump (Ok (replicate (N.to_nat ((maxId + 1) mod SIZE_MOD)) 0)) voxels.

(** [if (findFragments) ... else ...]: the heap, the segmentation and
    the sizes array afterwards. *)
Definition fragments (h : gmap N (list N)) (dims : N * N * N)
    (affinity_data : list AffValue) (segmentation : volume_ref)
    (affThresholdLow affThresholdHigh : AffValue) (findFragments : bool)
    : result (gmap N (list N) * list N * list N) :=
  voxels ← read_volume h segmentation;
  if findFragments then
    let '(voxels', sizes) :=
      watershed dims affinity_data affThresholdLow affThresholdHigh voxels in
    Ok (write_volume h segmentation voxels', voxels', sizes)
  else
    sizes ← count_sizes (default [] (h !! data segmentation)) voxels;
    Ok (h, voxels, sizes).

(** An assignment through the pointer that [createNew] returned. *)
Definition assign (r : WaterzContext.statics) (context_id : Z) (registered : bool)
    (f : WaterzContext.t -> WaterzContext.t) : WaterzContext.statics :=
  if registered
  then WaterzContext.mkStatics
         (alter f context_id (WaterzContext._contexts r))
         (WaterzContext._nextId r)
  else r.

(** [initialize(...)]. *)
Definition initialize (w : World) (width height depth : N)
    (affinity_data : list AffValue) (segmentation_data : N)
    (ground_truth_data : option (list N))
    (affThresholdLow affThresholdHigh : AffValue) (findFragments : bool)
    (unmergeList : option (list (list (list N))))
    : result (WaterzState * World) :=
  let num_voxels := (width * height * depth) mod SIZE_MOD in
  let dims := (width, height, depth) in
  let segmentation := mkVolume segmentation_data num_voxels in
  '(h, voxels, sizes) ← fragments (heap w) dims affinity_data segmentation
                          affThresholdLow affThresholdHigh findFragments;
  let numNodes := N.of_nat (length sizes) in
  let regionMerging :=
    new_region_merging dims affinity_data voxels numNodes
      ((numNodes + SIZE_MOD - 1) mod SIZE_MOD) in
  '(context_id, registered, r) ← WaterzContext.createNew (registry w);
  let r := assign r context_id registered (fun ctx =>
    WaterzContext.mk (WaterzContext.id ctx) (Some regionMerging)
      (Some segmentation) (WaterzContext.groundtruth ctx)
      (WaterzContext.unmergeList ctx)) in
  let initial_state := mkState context_id None in
  let r :=
    match ground_truth_data with
    | Some gt =>
        assign r context_id registered (fun ctx =>
          WaterzContext.mk (WaterzContext.id ctx) (WaterzContext.regionMerging ctx)
            (WaterzContext.segmentation ctx) (Some gt)
            (WaterzContext.unmergeList ctx))
    | None => r
    end in
  unmerge ← deref unmergeList;
  let r := assign r context_id registered (fun ctx =>
    WaterzContext.mk (WaterzContext.id ctx) (WaterzContext.regionMerging ctx)
      (WaterzContext.segmentation ctx) (WaterzContext.groundtruth ctx)
      unmerge) in
  Ok (initial_state, mkWorld r h).

(** [MergeHistoryVisitor], with the tracker pointer of its base class. *)
Record MergeHistoryVisitor : Type := mkVisitor {
  _history : list (Merge.t ScoreValue);
  _unmergeTracker : option UnmergeTracker.t
}.

(** [MergeHistoryVisitor::onMerge]. *)
Definition visitor_onMerge (vis : MergeHistoryVisitor) (a b c : N)
    (score : ScoreValue) : MergeHistoryVisitor :=
  mkVisitor (_history vis ++ [Merge.mk a b c score])
            ((fun tr => UnmergeTracker.onMerge tr a b c) <$> _unmergeTracker vis).

(** [RegionMergingVisitor::isValidMerge]. *)
Definition visitor_isValidMerge (vis : MergeHistoryVisitor) (a b : N) : bool :=
  match _unmergeTracker vis with
  | Some tr => UnmergeTracker.isValidMerge tr a b
  | None => true
  end.

(** The first half of [mergeUntil]: the tracker is built anew from the
    list kept in the context, and the engine runs with a fresh visitor. *)
Definition run_merging (ctx : WaterzContext.t) (threshold : ScoreValue)
    : result (nat * MergeHistoryVisitor * RegionMerging) :=
  unmergeTracker ←
    (if bool_decide (WaterzContext.unmergeList ctx = []) then Ok None
     else tr ← UnmergeTracker.new (WaterzContext.unmergeList ctx); Ok (Some tr));
  rm ← deref (WaterzContext.regionMerging ctx);
  engine_mergeUntil visitor_isValidMerge visitor_onMerge rm threshold
    (mkVisitor [] unmergeTracker).

(** [mergeUntil(state, threshold)]: the history, the state and the
    world afterwards. *)
Definition mergeUntil (w : World) (state : WaterzState)
    (threshold : ScoreValue)
    : result (list (Merge.t ScoreValue) * WaterzState * World) :=
  ctx ← deref (WaterzContext.get (registry w) (context state));
  '(merged, mergeHistoryVisitor, rm) ← run_merging ctx threshold;
  let r := WaterzContext.mkStatics
             (<[context state :=
                  WaterzContext.mk (WaterzContext.id ctx) (Some rm)
                    (WaterzContext.segmentation ctx)
                    (WaterzContext.groundtruth ctx)
                    (WaterzContext.unmergeList ctx)]>
                (WaterzContext._contexts (registry w)))
             (WaterzContext._nextId (registry w)) in
  h ← (if bool_decide (merged = 0%nat) then Ok (heap w)
       else
         segmentation ← deref (WaterzContext.segmentation ctx);
         voxels ← read_volume (heap w) segmentation;
         Ok (write_volume (heap w) segmentation (extractSegmentation rm voxels)));
  m ← match WaterzContext.groundtruth ctx with
      | Some gt =>
          segmentation ← deref (WaterzContext.segmentation ctx);
          voxels ← read_volume h segmentation;
          Ok (Some (compare_volumes gt voxels))
      | None => Ok (metrics state)
      end;
  Ok (_history mergeHistoryVisitor, mkState (context state) m, mkWorld r h).

(** [free(state)]. *)
Definition free (w : World) (state : WaterzState) : World :=
  mkWorld (WaterzContext.free (registry w) (context state)) (heap w).

(** A complete run: [initialize], then one [mergeUntil]; only the
    history is kept. *)
Definition run_history (w : World) (width height depth : N)
    (affinity_data : list AffValue) (segmentation_data : N)
    (ground_truth_data : option (list N))
    (affThresholdLow affThresholdHigh : AffValue) (findFragments : bool)
    (unmergeList : option (list (list (list N)))) (threshold : ScoreValue)
    : result (list (Merge.t ScoreValue)) :=
  '(state, w') ← initialize w width height depth affinity_data
                   segmentation_data ground_truth_data affThresholdLow
                   affThresholdHigh findFragments unmergeList;
  '(h, _, _) ← mergeUntil w' state threshold;
  Ok h.

(** The largest seed id among the voxels. *)
Definition max_id (voxels : list N) : N := foldr N.max 0 voxels.

End Frontend.

(** ** A merging engine after the spec *)

Module SpecEngine.

(** The statistic kept per edge and the score derived from it (spec
    sections 4.2 and 4.3), as the generated headers [ScoringFunction.h]
    and [Queue.h] would fix them. *)
Class Scoring : Type := {
  Score : Type;
  Stat : Type;
  score_eqb : Score -> Score -> bool;
  score_ltb : Score -> Score -> bool;
  combine : Stat -> Stat -> Stat;
  value : Stat -> Score
}.

Section Engine.
Context `{Sc : Scoring}.

(** Modelled from the spec: an edge of the region graph (section 3):
    two endpoints, the statistic kept by the provider, the cached score,
    and whether a merge has deleted it.  The class templates
    [RegionGraph] and [IterativeRegionMerging] are declared in backend
    headers that are not part of the two frontend files. *)
Record Edge : Type := mkEdge {
  eu : N;
  ev : N;
  estat : Stat;
  escore : Score;
  elive : bool
}.

(** Modelled from the spec: the state behind [context->regionMerging]
    (sections 3 and 4.1 to 4.5): the edges by edge id, the parent links
    of absorbed nodes, and the priority queue of score snapshots, kept
    sorted by score and, on ties, by edge id.  The region graph, the
    statistics provider and the scoring function that the context also
    points to are parts of this one state. *)
Record RegionMerging : Type := mkRM {
  numNodes : N;
  edges : list Edge;
  parents : gmap N N;
  queue : list (Score * nat)
}.

(** Modelled from the spec: the order of the queue (section 4.4): by
    score, and by edge id when the scores are equal. *)
Definition entry_ltb (x y : Score * nat) : bool :=
  score_ltb x.1 y.1 || (score_eqb x.1 y.1 && (x.2 <? y.2)%nat).

(** Modelled from the spec: queue insertion (section 4.4), best score
    first, ties by edge id, equal entries in arrival order. *)
Fixpoint push (x : Score * nat) (q : list (Score * nat))
    : list (Score * nat) :=
  match q with
  | [] => [x]
  | y :: q' => if entry_ltb x y then x :: y :: q' else y :: push x q'
  end.

(** Modelled from the spec: [add_edge] (section 4.1) together with the
    queue entry created on edge creation (section 3, lifecycle). *)
Definition add_edge (rm : RegionMerging) (u v : N) (s : Stat) : RegionMerging :=
  mkRM (numNodes rm)
       (edges rm ++ [mkEdge u v s (value s) true])
       (parents rm)
       (push (value s, length (edges rm)) (queue rm)).

(** Modelled from the spec: the engine over a graph of [n] nodes with the
    given edges added in order (section 2, data flow). *)
Definition from_edges (n : N) (initial : list (N * N * Stat))
    : RegionMerging :=
  foldl (fun rm e => add_edge rm e.1.1 e.1.2 e.2) (mkRM n [] ∅ []) initial.

(** Modelled from the spec: [resolve] (section 4.1) walks the parent
    links to the live root.  Path compression changes no result and is
    left out; a chain is never longer than the number of links. *)
Fixpoint resolve_from (n : nat) (ps : gmap N N) (x : N) : N :=
  match n with
  | O => x
  | S n' =>
      match ps !! x with
      | Some p => resolve_from n' ps p
      | None => x
      end
  end.

(** Modelled from the spec: [resolve(id)] (section 4.1). *)
Definition resolve (rm : RegionMerging) (x : N) : N :=
  resolve_from (size (parents rm)) (parents rm) x.

(** Modelled from the spec: incidence of an edge and a node (section 3,
    invariant 1), the other endpoint, and the live edge between two given
    nodes, if any (invariant 2 makes it unique). *)
Definition touches (e : Edge) (x : N) : bool :=
  bool_decide (eu e = x) || bool_decide (ev e = x).

Definition other_end (e : Edge) (x : N) : N :=
  if bool_decide (eu e = x) then ev e else eu e.

Definition joins (e : Edge) (x y : N) : bool :=
  elive e &&
  (bool_decide (eu e = x ∧ ev e = y) || bool_decide (eu e = y ∧ ev e = x)).

Fixpoint find_edge_from (i : nat) (es : list Edge) (x y : N) : option nat :=
  match es with
  | [] => None
  | e :: es' => if joins e x y then Some i else find_edge_from (S i) es' x y
  end.

(** Modelled from the spec: the three things [merge_nodes] does to an
    edge (section 4.1): mark it deleted, redirect an endpoint from the
    loser to the survivor, combine the statistic of a duplicate into it. *)
Definition kill (e : Edge) : Edge :=
  mkEdge (eu e) (ev e) (estat e) (escore e) false.

Definition redirect (e : Edge) (loser survivor : N) : Edge :=
  mkEdge (if bool_decide (eu e = loser) then survivor else eu e)
         (if bool_decide (ev e = loser) then survivor else ev e)
         (estat e) (escore e) (elive e).

Definition absorb (e src : Edge) : Edge :=
  mkEdge (eu e) (ev e) (combine (estat e) (estat src)) (escore e) (elive e).

(** Modelled from the spec: what [merge_nodes] does to the edge with id
    [i] (section 4.1): an edge of the loser is deleted when it is the
    self-loop, folded into the parallel edge of the survivor when there
    is one, and redirected otherwise. *)
Definition relink (survivor loser : N) (es : list Edge) (i : nat) : list Edge :=
  match es !! i with
  | Some e =>
      if elive e && touches e loser then
        let w := other_end e loser in
        if bool_decide (w = survivor) then <[i := kill e]> es
        else
          match find_edge_from 0 es survivor w with
          | Some j =>
              match es !! j with
              | Some e' => <[i := kill e]> (<[j := absorb e' e]> es)
              | None => es
              end
          | None => <[i := redirect e loser survivor]> es
          end
      else es
  | None => es
  end.

(** Modelled from the spec: step 8 of the merge loop (section 4.5) for
    the edge with id [i]: the score of an edge of the survivor is
    recomputed, and a fresh queue entry is pushed when it improved. *)
Definition rescore (survivor : N)
    (st : list Edge * list (Score * nat)) (i : nat)
    : list Edge * list (Score * nat) :=
  match st.1 !! i with
  | Some e =>
      if elive e && touches e survivor then
        let s := value (estat e) in
        (<[i := mkEdge (eu e) (ev e) (estat e) s (elive e)]> st.1,
         if score_ltb s (escore e) then push (s, i) st.2 else st.2)
      else st
  | None => st
  end.

(** Modelled from the spec: [merge_nodes(u, v)] (section 4.1) followed
    by the rescoring of step 8; the survivor is the smaller id. *)
Definition merge_nodes (rm : RegionMerging) (u v : N) : N * RegionMerging :=
  let survivor := N.min u v in
  let loser := N.max u v in
  let ids := seq 0 (length (edges rm)) in
  let es := foldl (relink survivor loser) (edges rm) ids in
  let '(es', q') := foldl (rescore survivor) (es, queue rm) ids in
  (survivor, mkRM (numNodes rm) es' (<[loser := survivor]> (parents rm)) q').

(** Modelled from the spec: deleting an edge so that it is never retried
    (section 4.5, steps 6 and 7), and replacing the queue. *)
Definition delete_edge (rm : RegionMerging) (i : nat) : RegionMerging :=
  mkRM (numNodes rm)
       (match edges rm !! i with
        | Some e => <[i := kill e]> (edges rm)
        | None => edges rm
        end)
       (parents rm) (queue rm).

Definition with_queue (rm : RegionMerging) (q : list (Score * nat))
    : RegionMerging :=
  mkRM (numNodes rm) (edges rm) (parents rm) q.

Section Loop.
(** The engine is a template over the visitor; these are the two
    callbacks that change what it does. *)
Context {V : Type}
        (vis_isValidMerge : V -> N -> N -> bool)
        (vis_onMerge : V -> N -> N -> N -> Score -> V).

(** Modelled from the spec: [IterativeRegionMerging::mergeUntil]
    (section 4.5, steps 1 to 9).  The result is the number of merges,
    the visitor and the engine state; [None] when [fuel] iterations
    did not reach one of the two exits. *)
Fixpoint merge_loop (fuel : nat) (rm : RegionMerging)
    (threshold : Score) (vis : V) (merged : nat)
    : option (nat * V * RegionMerging) :=
  match fuel with
  | O => None
  | S fuel' =>
      match queue rm with
      | [] => Some (merged, vis, rm)
      | (snapshot, e) :: q =>
          let rm0 := with_queue rm q in
          match edges rm !! e with
          | None => merge_loop fuel' rm0 threshold vis merged
          | Some ed =>
              if negb (elive ed) then
                merge_loop fuel' rm0 threshold vis merged
              else if negb (score_eqb (escore ed) snapshot) then
                merge_loop fuel' (with_queue rm0 (push (escore ed, e) q))
                           threshold vis merged
              else if score_ltb threshold (escore ed) then
                Some (merged, vis, with_queue rm0 (push (snapshot, e) q))
              else
                let u := resolve rm (eu ed) in
                let v := resolve rm (ev ed) in
                if bool_decide (u = v) then
                  merge_loop fuel' (delete_edge rm0 e) threshold vis merged
                else if negb (vis_isValidMerge vis u v) then
                  merge_loop fuel' (delete_edge rm0 e) threshold vis merged
                else
                  let '(survivor, rm1) := merge_nodes rm0 u v in
                  merge_loop fuel' rm1 threshold
                             (vis_onMerge vis u v survivor (escore ed))
                             (S merged)
          end
      end
  end.
End Loop.

(** Modelled from the spec: a bound on the iterations of the loop of
    section 4.5: every queue entry is popped once, and put back at most
    once for every merge or deletion that happens after it. *)
Definition loop_bound (rm : RegionMerging) : nat :=
  (length (queue rm) + length (edges rm) * length (edges rm) + 1)
  * (length (edges rm) + 2).

(** Modelled from the spec: [merge_until(threshold, visitor)] (section
    4.5) as the frontend calls it. *)
Definition mergeUntil {V : Type}
    (vis_isValidMerge : V -> N -> N -> bool)
    (vis_onMerge : V -> N -> N -> N -> Score -> V)
    (rm : RegionMerging) (threshold : Score) (vis : V)
    : result (nat * V * RegionMerging) :=
  match merge_loop vis_isValidMerge vis_onMerge (loop_bound rm) rm threshold vis 0 with
  | Some out => Ok out
  | None => Fault OutOfFuel
  end.

(** Modelled from the spec: segmentation extraction (section 4.5):
    every voxel is relabelled with the live root of its id. *)
Definition relabel (rm : RegionMerging) (voxels : list N) : list N :=
  resolve rm <$> voxels.

End Engine.

End SpecEngine.

(** ** A backend to run the frontend on *)

Module Example.

(** Modelled from the spec: routing an affinity into the edge between
    two seeds (section 6): the edge is created on first contact and its
    statistic, the largest affinity seen (section 4.2, max affinity), is
    updated afterwards.  Affinities and scores are in thousandths. *)
Fixpoint link (acc : list (N * N * Z)) (u v : N) (aff : Z) : list (N * N * Z) :=
  match acc with
  | [] => [(u, v, aff)]
  | e :: rest =>
      if bool_decide (e.1.1 = u ∧ e.1.2 = v)
      then (u, v, Z.max e.2 aff) :: rest
      else e :: link rest u v aff
  end.

(** Modelled from the spec: one contact between the voxels at offsets
    [i] and [j] (section 6, region-graph construction): two different
    seeds, neither of them the background 0, get the affinity at offset
    [k] routed into their edge. *)
Definition contact (voxels : list N) (affs : list Z) (acc : list (N * N * Z))
    (i j k : nat) : list (N * N * Z) :=
  match voxels !! i, voxels !! j, affs !! k with
  | Some s, Some s', Some aff =>
      if bool_decide (s = s' ∨ s = 0 ∨ s' = 0) then acc
      else link acc (N.min s s') (N.max s s') aff
  | _, _, _ => acc
  end.

(** Modelled from the spec: region-graph construction (section 6) on a
    volume in row-major order, channel [c] of the affinities linking a
    voxel to its predecessor along axis [c]. *)
Definition region_graph (dims : N * N * N) (affs : list Z) (voxels : list N)
    (maxId : N) : list (N * N * Z) :=
  let h := N.to_nat dims.1.2 in
  let d := N.to_nat dims.2 in
  let n := length voxels in
  foldl (fun acc i =>
      let acc := if (0 <? i / (h * d))%nat
                 then contact voxels affs acc (i - h * d) i i else acc in
      let acc := if (0 <? (i / d) mod h)%nat
                 then contact voxels affs acc (i - d) i (n + i) else acc in
      if (0 <? i mod d)%nat
      then contact voxels affs acc (i - 1) i (2 * n + i) else acc)
    [] (seq 0 n).

(** Modelled from the spec: an output the watershed interface admits
    (section 6: ids from 1, a parallel sizes array with entry 0 for the
    background): the finest seeding, every voxel a seed of its own.  The
    watershed itself is in a backend header outside the two frontend
    files, and no example calls it. *)
Definition finest_seeding (dims : N * N * N) (affs : list Z) (low high : Z)
    (voxels : list N) : list N * list N :=
  (N.of_nat <$> seq 1 (length voxels), 0 :: replicate (length voxels) 1).

(** A stand-in for the evaluation against ground truth, whose metrics
    are floating-point numbers: the number of voxels on which two
    labellings differ. *)
Definition disagreement (gt voxels : list N) : nat :=
  length (filter (fun p => p.1 ≠ p.2) (zip gt voxels)).

(** Modelled from the spec: max affinity as the statistic (section 4.2)
    and the statistic itself as the score, as in the scenarios of section
    8. *)
Definition scoring : SpecEngine.Scoring := {|
  SpecEngine.Score := Z;
  SpecEngine.Stat := Z;
  SpecEngine.score_eqb := Z.eqb;
  SpecEngine.score_ltb := Z.ltb;
  SpecEngine.combine := Z.max;
  SpecEngine.value := fun s => s
|}.

(** The example backend: the engine after the spec behind the interface
    the frontend is written against. *)
Definition backend : Backend := {|
  AffValue := Z;
  ScoreValue := Z;
  Metrics := nat;
  RegionMerging := SpecEngine.RegionMerging (Sc := scoring);
  watershed := finest_seeding;
  new_region_merging := fun dims affs voxels numNodes maxId =>
    SpecEngine.from_edges (Sc := scoring) numNodes
      (region_graph dims affs voxels maxId);
  engine_mergeUntil := fun V => SpecEngine.mergeUntil (Sc := scoring) (V := V);
  extractSegmentation := SpecEngine.relabel (Sc := scoring);
  compare_volumes := disagreement
|}.

#[local] Existing Instance backend.

(** A line of three seeds 1 - 2 - 3: the interface between 1 and 2 has
    affinity 0.2, the one between 2 and 3 has 0.6; seeds 2 and 3 must
    never end up in one region. *)
Definition line_voxels : list N := [1; 2; 3].
Definition line_affinities : list Z := [0; 200; 600; 0; 0; 0; 0; 0; 0]%Z.
Definition line_unmerge : list (list (list N)) := [[[2]; [3]]].

(** A constraint list for the tracker alone: seeds 1 and 2 form one
    coherent group, seed 3 another, and the two must stay apart. *)
Definition sample_list : list (list (list N)) := [[[1; 2]; [3]]].

Definition world0 : World := mkWorld WaterzContext.initial {[ 100 := line_voxels ]}.

Definition line_initialized_with (unmerge : list (list (list N)))
    : result (WaterzState * World) :=
  initialize world0 3 1 1 line_affinities 100 None 0%Z 1000%Z false
             (Some unmerge).

Definition line_initialized : result (WaterzState * World) :=
  line_initialized_with line_unmerge.

(** [mergeUntil(state, t)] on the initialized line. *)
Definition line_direct (unmerge : list (list (list N))) (t : Z)
    : result (list (Merge.t Z) * WaterzState * World) :=
  '(state, w) ← line_initialized_with unmerge;
  mergeUntil w state t.

(** [mergeUntil(state, t1)] followed by [mergeUntil(state, t2)]: the two
    histories and the world at the end. *)
Definition line_resumed (unmerge : list (list (list N))) (t1 t2 : Z)
    : result (list (Merge.t Z) * list (Merge.t Z) * World) :=
  '(state, w) ← line_initialized_with unmerge;
  '(h1, state1, w1) ← mergeUntil w state t1;
  '(h2, _, w2) ← mergeUntil w1 state1 t2;
  Ok (h1, h2, w2).

(** What the caller observes: the merge histories returned, in order,
    and the segmentation volume at the end. *)
Definition line_direct_outcome (unmerge : list (list (list N))) (t : Z)
    : option (list (Merge.t Z) * option (list N)) :=
  match line_direct unmerge t with
  | Ok (h, _, w) => Some (h, heap w !! 100)
  | Fault _ => None
  end.

Definition line_resumed_outcome (unmerge : list (list (list N))) (t1 t2 : Z)
    : option (list (Merge.t Z) * list (Merge.t Z) * option (list N)) :=
  match line_resumed unmerge t1 t2 with
  | Ok (h1, h2, w) => Some (h1, h2, heap w !! 100)
  | Fault _ => None
  end.

(** The fault a call ended with, if any, and the history it returned. *)
Definition fault_of {A} (r : result A) : option fault :=
  match r with
  | Ok _ => None
  | Fault f => Some f
  end.

Definition history_of {A B} (r : result (list (Merge.t Z) * A * B))
    : option (list (Merge.t Z)) :=
  match r with
  | Ok (h, _, _) => Some h
  | Fault _ => None
  end.

(** The world after [initialize] on the line, and a later world of the
    same process: the first context is still registered and the caller
    has a second copy of the input at another address. *)
Definition world1 : World :=
  match line_initialized with
  | Ok (_, w) => w
  | Fault _ => world0
  end.

Definition state1 : WaterzState :=
  match line_initialized with
  | Ok (state, _) => state
  | Fault _ => mkState 0 None
  end.

Definition world_later : World :=
  mkWorld (registry world1) (<[ 200 := line_voxels ]> (heap world1)).

End Example.

(** ** Sequences of merges seen by the tracker and the visitor *)

Module Runs.
Import UnmergeTracker.

(** The tracker after the calls [onMerge(a, b, c)] of a list, in order. *)
Definition replay (tr : t) (ms : list (N * N * N)) : t :=
  foldl (fun tr m => onMerge tr m.1.1 m.1.2 m.2) tr ms.

(** The seeds that the merges of a list have put under each id: every id
    starts as its own seed, and a merge [(a, b, c)] puts the seeds of [a]
    and of [b] under [c]. *)
Definition merge_regions (f : N -> list N) (a b c : N) : N -> list N :=
  fun x => if bool_decide (x = c) then f a ++ f b else f x.

Definition regions (ms : list (N * N * N)) : N -> list N :=
  foldl (fun f m => merge_regions f m.1.1 m.1.2 m.2) (fun x => [x]) ms.

(** A list of merges that the tracker was asked about one by one: each
    was approved by [isValidMerge] in the state the earlier ones had left,
    and its survivor is one of the two merged ids. *)
Inductive approved (tr : t) : list (N * N * N) -> Prop :=
  | approved_nil : approved tr []
  | approved_snoc ms a b c :
      approved tr ms ->
      isValidMerge (replay tr ms) a b = true ->
      c = a ∨ c = b ->
      approved tr (ms ++ [(a, b, c)]).

(** Every survivor of the list is one of the two ids merged. *)
Definition survivors_ok (ms : list (N * N * N)) : Prop :=
  Forall (fun m => m.2 = m.1.1 ∨ m.2 = m.1.2) ms.

(** What the input list says about two seeds: some tuple has them in two
    coherent groups with different group ids. *)
Definition apart (input_list : list (list (list N))) (s s' : N) : Prop :=
  exists tuple G G' g g',
    tuple ∈ input_list ∧ G ∈ tuple ∧ G' ∈ tuple ∧
    head G = Some g ∧ head G' = Some g' ∧ g ≠ g' ∧ s ∈ G ∧ s' ∈ G'.

(** Two lists to try the tracker on: [Example.sample_list], and a list
    whose two tuples both start a coherent group with seed 1. *)
Definition cross_list : list (list (list N)) := [[[1; 5]; [2]]; [[1; 7]; [3]]].

Definition tracker_of (input_list : list (list (list N))) : t :=
  match new input_list with
  | Ok tr => tr
  | Fault _ => mk ∅ ∅ true
  end.

(** A state the class cannot reach: group 11 was handed out without an
    anti list, so the loop of [isValidMerge] goes on to it with the anti
    list of group 10 still in its vector. *)
Definition unlinked_tracker : t :=
  mk {[ 1 := [10; 11; 12]; 2 := [20] ]} {[ 10 := [30]; 12 := [20] ]} false.

End Runs.

(** [struct ScoredEdge]. *)
Module ScoredEdge.
Record t (S : Type) : Type := mk { u : N; v : N; score : S }.
Arguments mk {S} u v score.
Arguments u {S} _.
Arguments v {S} _.
Arguments score {S} _.
End ScoredEdge.

Section MoreFrontend.
Context `{B : Backend}.

(** [regionMerging->extractRegionGraph<ScoredEdge>(scoringFunction)], a
    member template of the engine, declared in a backend header. *)
Variable extractRegionGraph : RegionMerging -> list (ScoredEdge.t ScoreValue).

(** [getRegionGraph(state)]. *)
Definition getRegionGraph (w : World) (state : WaterzState)
    : result (list (ScoredEdge.t ScoreValue)) :=
  ctx ← deref (WaterzContext.get (registry w) (context state));
  regionMerging ← deref (WaterzContext.regionMerging ctx);
  Ok (extractRegionGraph regionMerging).

(** The visitor after the calls [onMerge(a, b, c, score)] of a list of
    history entries, in order. *)
Definition play (vis : MergeHistoryVisitor) (ms : list (Merge.t ScoreValue))
    : MergeHistoryVisitor :=
  foldl (fun v m => visitor_onMerge v (Merge.a m) (Merge.b m) (Merge.c m)
                      (Merge.score m)) vis ms.

(** The ids of a history entry. *)
Definition merge_ids (m : Merge.t ScoreValue) : N * N * N :=
  (Merge.a m, Merge.b m, Merge.c m).


End MoreFrontend.

(** More inputs to run the frontend on. *)
Module MoreExamples.
#[local] Existing Instance Example.backend.

(** A volume of two voxels whose second seed id is the largest word. *)
Definition world_max_id : World :=
  mkWorld WaterzContext.initial {[ 100 := [1; 18446744073709551615] ]}.

(** The line with a constraint list whose second coherent group is
    empty. *)
Definition line_unmerge_empty_group : list (list (list N)) := [[[2]; []]].

(** Modelled from the spec: region-graph export (section 4.5): the live
    edges with their scores. *)
Definition live_edges (rm : SpecEngine.RegionMerging (Sc := Example.scoring))
    : list (ScoredEdge.t Z) :=
  (fun e => ScoredEdge.mk (SpecEngine.eu e) (SpecEngine.ev e) (SpecEngine.escore e))
    <$> filter (fun e => SpecEngine.elive e = true) (SpecEngine.edges rm).


(** The engine a call left behind, and the scores of its live edges. *)
Definition rm_of {A C} (r : result (A * C * RegionMerging (Backend := Example.backend)))
    : option (RegionMerging (Backend := Example.backend)) :=
  match r with
  | Ok (_, _, rm) => Some rm
  | Fault _ => None
  end.

Definition rm_scores (rm : option (RegionMerging (Backend := Example.backend)))
    : option (list Z) :=
  (fun rm => ScoredEdge.score <$> live_edges rm) <$> rm.

End MoreExamples.
(** ** Facts about the tracker *)

Module UnmergeTrackerFacts.
Import UnmergeTracker.

Section Lookup.
Implicit Types (seg anti m : gmap N (list N)) (l M : list N).

Lemma push_back_at_elem m k x s g :
  g ∈ default [] (push_back_at m k x !! s) ↔
  g ∈ default [] (m !! s) ∨ (g = x ∧ s = k).
Proof.
  unfold push_back_at. destruct (decide (k = s)) as [->|Hne].
  - rewrite lookup_insert_eq. simpl. rewrite elem_of_app, list_elem_of_singleton.
    naive_solver.
  - rewrite lookup_insert_ne by done. naive_solver.
Qed.

Lemma extend_at_elem m k xs s g :
  g ∈ default [] (extend_at m k xs !! s) ↔
  g ∈ default [] (m !! s) ∨ (g ∈ xs ∧ s = k).
Proof.
  unfold extend_at. destruct (decide (k = s)) as [->|Hne].
  - rewrite lookup_insert_eq. simpl. rewrite elem_of_app. naive_solver.
  - rewrite lookup_insert_ne by done. naive_solver.
Qed.

Lemma tag_segids_elem groupid l seg s g :
  g ∈ default [] (tag_segids groupid l seg !! s) ↔
  g ∈ default [] (seg !! s) ∨ (g = groupid ∧ s ∈ l).
Proof.
  unfold tag_segids. revert seg.
  induction l as [|x l IH]; intros seg; simpl.
  - rewrite elem_of_nil. naive_solver.
  - rewrite IH, push_back_at_elem, elem_of_cons. naive_solver.
Qed.

Lemma others_of_elem M g h : h ∈ others_of M g ↔ h ∈ M ∧ h ≠ g.
Proof. unfold others_of. rewrite list_elem_of_filter. naive_solver. Qed.

Lemma link_antis_from_elem M l anti g h :
  h ∈ default [] (link_antis_from M l anti !! g) ↔
  h ∈ default [] (anti !! g) ∨ (g ∈ l ∧ h ∈ M ∧ h ≠ g).
Proof.
  unfold link_antis_from. revert anti.
  induction l as [|x l IH]; intros anti; simpl.
  - rewrite elem_of_nil. naive_solver.
  - rewrite IH, extend_at_elem, others_of_elem, elem_of_cons. naive_solver.
Qed.

(** What one pass over the groups of a tuple leaves behind: the group
    ids, in order, and every member of a group tagged with its id. *)
Lemma collect_groups_spec tuple mutex seg mutex' seg' :
  collect_groups tuple mutex seg = Ok (mutex', seg') ->
  exists gids,
    mutex' = mutex ++ gids ∧
    Forall2 (fun G g => head G = Some g) tuple gids ∧
    forall s g,
      g ∈ default [] (seg' !! s) ↔
      g ∈ default [] (seg !! s) ∨
      exists G, G ∈ tuple ∧ head G = Some g ∧ s ∈ G.
Proof.
  revert mutex seg.
  induction tuple as [|G tuple IH]; intros mutex seg H; simpl in H.
  - injection H as <- <-. exists []. rewrite app_nil_r.
    split; [done|]. split; [constructor|].
    intros s g. split; [auto|]. intros [?|(G & HG & _)]; [done|].
    by apply elem_of_nil in HG.
  - destruct G as [|groupid G']; [done|].
    apply IH in H as (gids & -> & Hall & Hseg).
    exists (groupid :: gids). rewrite <- app_assoc. split; [done|].
    split; [by constructor|].
    intros s g. rewrite Hseg, tag_segids_elem. split.
    + intros [[?|[-> Hs]]|(G & HG & Hh & Hs)]; [by left| |].
      * right. exists (groupid :: G'). rewrite elem_of_cons. auto.
      * right. exists G. rewrite elem_of_cons. auto.
    + intros [?|(G & HG & Hh & Hs)]; [by left; left|].
      apply elem_of_cons in HG as [->|HG].
      * simpl in Hh. injection Hh as ->. left; right. done.
      * right. eauto.
Qed.

Lemma Forall2_head_elem (tuple : list (list N)) gids G g :
  Forall2 (fun G g => head G = Some g) tuple gids ->
  G ∈ tuple -> head G = Some g -> g ∈ gids.
Proof.
  intros Hall [i Hi]%list_elem_of_lookup Hh.
  destruct (Forall2_lookup_l _ _ _ _ _ Hall Hi) as (g' & Hg' & Hh').
  apply list_elem_of_lookup. exists i. congruence.
Qed.

End Lookup.


Section Invariant.
Implicit Types (seg anti : gmap N (list N)) (tr : t).

Lemma groups_default tr s :
  groups tr s = default [] (_segid_to_groupid_list tr !! s).
Proof. unfold groups, getGroupIDs. by destruct (_ !! s). Qed.

Lemma antis_default tr g :
  antis tr g = default [] (_groupid_to_anti_list tr !! g).
Proof. unfold antis, getAntiGroupIDs. by destruct (_ !! g). Qed.

Lemma wf_initial : wf (mk ∅ ∅ false).
Proof.
  split; simpl; [|done].
  intros g h. rewrite !antis_default. simpl. rewrite !lookup_empty. simpl.
  by intros ?%elem_of_nil.
Qed.

(** One tuple of the constructor keeps the invariant. *)
Lemma tuple_step_wf tuple seg anti mutex seg' :
  wf (mk seg anti false) ->
  collect_groups tuple [] seg = Ok (mutex, seg') ->
  wf (mk seg' (link_antis mutex anti) false).
Proof.
  intros [Hs _] _. split; simpl; [|done].
  intros g h. rewrite !antis_default. simpl. unfold link_antis.
  rewrite !link_antis_from_elem. intros [Hh|(? & ? & ?)].
  - left. specialize (Hs g h). rewrite !antis_default in Hs. auto.
  - right. auto.
Qed.

Lemma build_wf input_list seg anti seg' anti' :
  build input_list seg anti = Ok (seg', anti') ->
  wf (mk seg anti false) -> wf (mk seg' anti' false).
Proof.
  revert seg anti.
  induction input_list as [|tuple rest IH]; intros seg anti H Hwf; simpl in H.
  - by injection H as <- <-.
  - destruct (collect_groups tuple [] seg) as [[mutex seg1]|] eqn:E; [|done].
    simpl in H. eauto using tuple_step_wf.
Qed.

(** Anti lists only grow while the constructor runs, and after a tuple
    has been processed every two of its group ids that differ are
    linked. *)
Lemma build_links input_list seg anti seg' anti' :
  build input_list seg anti = Ok (seg', anti') ->
  (forall g h, h ∈ default [] (anti !! g) -> h ∈ default [] (anti' !! g)) ∧
  (forall tuple G G' g g',
      tuple ∈ input_list -> G ∈ tuple -> G' ∈ tuple ->
      head G = Some g -> head G' = Some g' -> g' ≠ g ->
      g' ∈ default [] (anti' !! g)).
Proof.
  revert seg anti.
  induction input_list as [|tuple rest IH]; intros seg anti H; simpl in H.
  - injection H as <- <-. split; [done|].
    intros tuple ???? Hin. by apply elem_of_nil in Hin.
  - destruct (collect_groups tuple [] seg) as [[mutex seg1]|] eqn:E; [|done].
    simpl in H. apply IH in H as [Hmono Hlinks].
    apply collect_groups_spec in E as (gids & -> & Hall & _). simpl in *.
    split.
    + intros g h Hh. apply Hmono. unfold link_antis.
      rewrite link_antis_from_elem. by left.
    + intros tuple' G G' g g' [->|Hin]%elem_of_cons HG HG' Hg Hg' Hne.
      * apply Hmono. unfold link_antis. rewrite link_antis_from_elem.
        right. eauto using Forall2_head_elem.
      * eauto.
Qed.

Lemma new_wf input_list tr : new input_list = Ok tr -> wf tr.
Proof.
  unfold new. destruct input_list as [|tuple rest].
  - intros [= <-]. split; simpl; [|done].
    intros g h. rewrite !antis_default. simpl. rewrite !lookup_empty.
    by intros ?%elem_of_nil.
  - destruct (build (tuple :: rest) ∅ ∅) as [[seg anti]|] eqn:E; [|done].
    intros [= <-]. eauto using build_wf, wf_initial.
Qed.

Lemma onMerge_groups tr a b c s :
  wf tr ->
  groups (onMerge tr a b c) s =
  if bool_decide (s = c ∧ groups tr a ++ groups tr b ≠ [])
  then groups tr a ++ groups tr b else groups tr s.
Proof.
  intros Hwf. unfold onMerge. fold (groups tr a) (groups tr b).
  destruct (_is_empty tr) eqn:He.
  - apply (wf_empty _ Hwf) in He. rewrite !groups_default, He, !lookup_empty.
    simpl. by rewrite bool_decide_eq_false_2 by naive_solver.
  - case_bool_decide as Hnil.
    + rewrite Hnil. by rewrite bool_decide_eq_false_2 by naive_solver.
    + rewrite groups_default. simpl. case_bool_decide as Hs.
      * destruct Hs as [-> _]. by rewrite lookup_insert_eq.
      * rewrite lookup_insert_ne by naive_solver. by rewrite groups_default.
Qed.

Lemma onMerge_antis tr a b c g : antis (onMerge tr a b c) g = antis tr g.
Proof.
  unfold onMerge. destruct (_is_empty tr); [done|].
  by case_bool_decide.
Qed.

Lemma onMerge_wf tr a b c : wf tr -> wf (onMerge tr a b c).
Proof.
  intros Hwf. split.
  - intros g h. rewrite !onMerge_antis. apply (wf_sym _ Hwf).
  - unfold onMerge. destruct (_is_empty tr) eqn:He.
    + intros _. by apply (wf_empty _ Hwf).
    + case_bool_decide; simpl; congruence.
Qed.

Lemma reachable_wf tr : reachable tr -> wf tr.
Proof. induction 1; eauto using new_wf, onMerge_wf. Qed.
End Invariant.


Section Checks.
Implicit Types (tr : t).

Lemma bool_eq_by_false (b1 b2 : bool) : (b1 = false ↔ b2 = false) -> b1 = b2.
Proof. destruct b1, b2; naive_solver. Qed.

Lemma hit_iff (anti_groups_a groups_b : list N) :
  existsb (fun group_b =>
    existsb (fun anti_group_a => bool_decide (anti_group_a = group_b))
            anti_groups_a) groups_b = true ↔
  exists h, h ∈ anti_groups_a ∧ h ∈ groups_b.
Proof.
  rewrite existsb_exists. split.
  - intros (y & Hy & (x & Hx & Heq%bool_decide_eq_true)%existsb_exists).
    subst. exists y. by rewrite !list_elem_of_In.
  - intros (h & Ha & Hb). exists h. rewrite <- list_elem_of_In. split; [done|].
    apply existsb_exists. exists h. rewrite <- list_elem_of_In.
    by rewrite bool_decide_eq_true.
Qed.

(** The vector carried from one iteration to the next never decides
    the answer: had it matched a group of [b], the loop would have
    returned before. *)
Lemma scan_groups_false tr groups_a groups_b carry :
  (forall h, h ∈ carry -> h ∉ groups_b) ->
  scan_groups tr groups_a groups_b carry = false ↔
  exists g h, g ∈ groups_a ∧ h ∈ antis tr g ∧ h ∈ groups_b.
Proof.
  revert carry. induction groups_a as [|group_a rest IH]; intros carry Hc; simpl.
  - split; [done|]. intros (g & h & Hg & _). by apply elem_of_nil in Hg.
  - destruct (existsb _ groups_b) eqn:E.
    + apply hit_iff in E as (h & Hh & Hb). split; [|done]. intros _.
      exists group_a, h. split; [by left|]. split; [|done].
      unfold antis. unfold getAntiGroupIDs in *.
      destruct (_groupid_to_anti_list tr !! group_a); [done|].
      by apply Hc in Hh.
    + rewrite IH.
      * split.
        -- intros (g & h & ? & ?). exists g, h. split; [by right|done].
        -- intros (g & h & [->|Hg]%elem_of_cons & Hh & Hb); [|by eauto].
           assert (getAntiGroupIDs tr group_a carry = antis tr group_a) as Heq.
           { unfold antis, getAntiGroupIDs in *.
             destruct (_groupid_to_anti_list tr !! group_a); [done|].
             by apply elem_of_nil in Hh. }
           rewrite Heq in E.
           assert (existsb (fun group_b =>
             existsb (fun anti_group_a => bool_decide (anti_group_a = group_b))
                     (antis tr group_a)) groups_b = true) as E'
             by (apply hit_iff; eauto).
           congruence.
      * intros h Hh Hb.
        assert (existsb (fun group_b =>
          existsb (fun anti_group_a => bool_decide (anti_group_a = group_b))
                  (getAntiGroupIDs tr group_a carry)) groups_b = true) as E'
          by (apply hit_iff; eauto).
        congruence.
Qed.

Lemma isValidMerge_false tr a b :
  wf tr -> isValidMerge tr a b = false ↔ conflict tr a b.
Proof.
  intros Hwf. unfold isValidMerge, conflict. destruct (_is_empty tr) eqn:He.
  - apply (wf_empty _ Hwf) in He. split; [done|].
    intros (g & h & Hg & _). rewrite groups_default, He, lookup_empty in Hg.
    by apply elem_of_nil in Hg.
  - apply scan_groups_false. by intros h ?%elem_of_nil.
Qed.

Lemma conflict_sym tr a b : wf tr -> conflict tr a b -> conflict tr b a.
Proof.
  intros Hwf (g & h & Hg & Hh & Hb). exists h, g.
  eauto using wf_sym.
Qed.

Lemma onMerge_groups_survivor tr a b c :
  wf tr -> c = a ∨ c = b ->
  groups (onMerge tr a b c) c = groups tr a ++ groups tr b.
Proof.
  intros Hwf Hc. rewrite onMerge_groups by done. case_bool_decide as H; [done|].
  destruct (decide (groups tr a ++ groups tr b = [])) as [Hnil|]; [|naive_solver].
  rewrite Hnil. apply app_eq_nil in Hnil as [Ha Hb]. by destruct Hc as [->| ->].
Qed.

Lemma onMerge_groups_other tr a b c s :
  wf tr -> s ≠ c -> groups (onMerge tr a b c) s = groups tr s.
Proof.
  intros Hwf Hs. rewrite onMerge_groups by done.
  by rewrite bool_decide_eq_false_2 by naive_solver.
Qed.
End Checks.

End UnmergeTrackerFacts.

(** ** Counting the voxels of a supplied segmentation *)

Section Sizes.
Context `{B : Backend}.

Lemma max_element_max_id x xs : max_element x xs = max_id (x :: xs).
Proof.
  unfold max_element, max_id. revert x.
  induction xs as [|y ys IH]; intros x; simpl.
  - lia.
  - rewrite IH. simpl. lia.
Qed.

Lemma max_id_bound voxels s : s ∈ voxels -> s ≤ max_id voxels.
Proof.
  unfold max_id. induction voxels as [|y ys IH]; simpl.
  - by intros ?%elem_of_nil.
  - intros [->|Hs]%elem_of_cons; [lia|]. apply IH in Hs. lia.
Qed.

Lemma max_id_elem voxels : voxels ≠ [] -> max_id voxels ∈ voxels.
Proof.
  unfold max_id. induction voxels as [|y ys IH]; [done|]. intros _. simpl.
  destruct ys as [|z zs].
  - simpl. replace (N.max y 0) with y by lia. left.
  - destruct (N.max_spec y (foldr N.max 0 (z :: zs))) as [[_ ->]|[_ ->]].
    + right. by apply IH.
    + left.
Qed.





End Sizes.

(** ** The registry *)

Section RegistryFacts.
Context `{B : Backend}.
Import WaterzContext.
Implicit Types (r : statics) (k : Z).

Lemma registry_ok_initial : registry_ok initial.
Proof. split; [done|]. apply map_Forall_empty. Qed.

Lemma get_free r k : get (free r k) k = None.
Proof.
  unfold free, get. destruct (_contexts r !! k) eqn:E; simpl; [|done].
  apply lookup_delete_eq.
Qed.

Lemma free_free r k : free (free r k) k = free r k.
Proof. unfold free at 1. by rewrite get_free. Qed.

Lemma get_not_issued r k : registry_ok r -> ¬ issued r k -> get r k = None.
Proof.
  intros [_ Hok] Hk. unfold get. destruct (_contexts r !! k) eqn:E; [|done].
  by apply Hok in E.
Qed.

Lemma free_registry_ok r k : registry_ok r -> registry_ok (free r k).
Proof.
  intros [H0 Hok]. unfold free. destruct (get r k); [|done].
  split; [done|]. simpl. by apply map_Forall_delete.
Qed.

(** With the registry in order, [createNew] registers the context it
    creates. *)
Lemma createNew_ok r :
  registry_ok r -> _nextId r ≠ INT_MAX ->
  createNew r =
  Ok (_nextId r, true,
      mkStatics (<[_nextId r := mk (_nextId r) None None None []]> (_contexts r))
                (_nextId r + 1)%Z).
Proof.
  intros [_ Hok] Hmax. unfold createNew.
  rewrite bool_decide_eq_false_2 by done.
  assert (_contexts r !! _nextId r = None) as Hfresh.
  { destruct (_contexts r !! _nextId r) eqn:E; [|done]. apply Hok in E. lia. }
  by rewrite bool_decide_eq_true_2.
Qed.

Lemma insert_registry_ok r (ctx : t) :
  registry_ok r ->
  registry_ok (mkStatics (<[_nextId r := ctx]> (_contexts r)) (_nextId r + 1)%Z).
Proof.
  intros [H0 Hok]. split; simpl; [lia|].
  apply map_Forall_insert_2; [lia|].
  intros k x Hk. apply Hok in Hk. lia.
Qed.
End RegistryFacts.

(** ** The engine counts what the visitor records *)

Section EngineFacts.
Context `{Sc : SpecEngine.Scoring}.
Context {V : Type}
        (isValid : V -> N -> N -> bool)
        (onMerge : V -> N -> N -> N -> SpecEngine.Score -> V)
        (count : V -> nat).
Hypothesis count_onMerge : forall v a b c s, count (onMerge v a b c s) = S (count v).

Lemma merge_loop_counts fuel rm threshold vis merged n vis' rm' :
  SpecEngine.merge_loop isValid onMerge fuel rm threshold vis merged
    = Some (n, vis', rm') ->
  (count vis' + merged = count vis + n)%nat.
Proof.
  revert rm vis merged.
  induction fuel as [|fuel IH]; intros rm vis merged H; simpl in H; [done|].
  destruct (SpecEngine.queue rm) as [|[snapshot e] q];
    [by injection H as <- <- <-|].
  destruct (SpecEngine.edges rm !! e) as [ed|]; [|by eauto].
  destruct (negb (SpecEngine.elive ed)); [by eauto|].
  destruct (negb (SpecEngine.score_eqb _ _)); [by eauto|].
  destruct (SpecEngine.score_ltb _ _); [by injection H as <- <- <-|].
  destruct (bool_decide _); [by eauto|].
  destruct (negb (isValid _ _ _)); [by eauto|].
  destruct (SpecEngine.merge_nodes _ _ _) as [survivor rm1].
  apply IH in H. rewrite count_onMerge in H. lia.
Qed.

Lemma spec_engine_counts rm threshold vis n vis' rm' :
  SpecEngine.mergeUntil isValid onMerge rm threshold vis = Ok (n, vis', rm') ->
  count vis' = (count vis + n)%nat.
Proof.
  unfold SpecEngine.mergeUntil.
  destruct (SpecEngine.merge_loop _ _ _ _ _ _ _) as [[[n0 v0] rm0]|] eqn:E;
    [|done].
  intros [= -> -> ->]. apply merge_loop_counts in E. lia.
Qed.
End EngineFacts.

Lemma example_counts_merges : counts_merges Example.backend.
Proof.
  intros V isValid onMerge count Hcount rm threshold v n v' rm' H.
  exact (spec_engine_counts (Sc := Example.scoring) isValid onMerge count
           Hcount rm threshold v n v' rm' H).
Qed.

Section VisitorFacts.
Context `{B : Backend}.

Lemma run_merging_counts ctx threshold merged vis rm :
  counts_merges B ->
  run_merging ctx threshold = Ok (merged, vis, rm) ->
  length (_history vis) = merged.
Proof.
  intros Hlaw. unfold run_merging.
  destruct (if bool_decide _ then _ else _) as [tracker|]; [|done]. simpl.
  destruct (WaterzContext.regionMerging ctx) as [rm0|]; [|done]. simpl.
  intros H.
  apply (Hlaw _ _ _ (fun v => length (_history v))) in H; [done|].
  intros v a b c s. simpl. rewrite length_app. simpl. lia.
Qed.
End VisitorFacts.

(** ** What a run depends on *)

Section RunFacts.
Context `{B : Backend}.
Import WaterzContext.

(** Reading and writing a volume only involve the array it points to. *)
Lemma read_volume_local (h1 h2 : gmap N (list N)) p1 p2 n :
  h1 !! p1 = h2 !! p2 ->
  read_volume h1 (mkVolume p1 n) = read_volume h2 (mkVolume p2 n).
Proof. unfold read_volume. simpl. by intros ->. Qed.

Lemma write_volume_local (h1 h2 : gmap N (list N)) p1 p2 n voxels :
  h1 !! p1 = h2 !! p2 ->
  write_volume h1 (mkVolume p1 n) voxels !! p1
  = write_volume h2 (mkVolume p2 n) voxels !! p2.
Proof.
  unfold write_volume. simpl. intros Heq. rewrite Heq.
  destruct (h2 !! p2) eqn:E; [|by rewrite Heq].
  by rewrite !lookup_insert_eq.
Qed.

(** Two calls that find the same contents under their segmentation
    pointers seed alike. *)
Lemma fragments_local (h1 h2 : gmap N (list N)) p1 p2 n dims affs lo hi ff :
  h1 !! p1 = h2 !! p2 ->
  match fragments h1 dims affs (mkVolume p1 n) lo hi ff,
        fragments h2 dims affs (mkVolume p2 n) lo hi ff with
  | Ok (h1', v1, s1), Ok (h2', v2, s2) =>
      v1 = v2 ∧ s1 = s2 ∧ h1' !! p1 = h2' !! p2
  | Fault f1, Fault f2 => f1 = f2
  | _, _ => False
  end.
Proof.
  intros Heq. unfold fragments.
  rewrite (read_volume_local h1 h2 p1 p2 n Heq).
  destruct (read_volume h2 _) as [voxels|]; simpl; [|done].
  destruct ff.
  - destruct (watershed _ _ _ _ _) as [voxels' sizes].
    split; [done|]. split; [done|]. by apply write_volume_local.
  - simpl. rewrite Heq. destruct (count_sizes _ voxels); simpl; done.
Qed.

(** [initialize] on a registry that is in order. *)
Lemma initialize_normal (w : World) width height depth affs p gt lo hi ff ul :
  registry_ok (registry w) -> _nextId (registry w) ≠ INT_MAX ->
  initialize w width height depth affs p gt lo hi ff ul =
  (let vol := mkVolume p ((width * height * depth) mod SIZE_MOD) in
   '(h, voxels, sizes) ← fragments (heap w) (width, height, depth) affs vol lo hi ff;
   unmerge ← deref ul;
   let numNodes := N.of_nat (length sizes) in
   let rm := new_region_merging (width, height, depth) affs voxels numNodes
               ((numNodes + SIZE_MOD - 1) mod SIZE_MOD) in
   let next := _nextId (registry w) in
   Ok (mkState next None,
       mkWorld (mkStatics
                  (<[next := mk next (Some rm) (Some vol) gt unmerge]>
                     (_contexts (registry w)))
                  (next + 1)%Z) h)).
Proof.
  intros Hok Hmax. unfold initialize. simpl.
  destruct (fragments _ _ _ _ _ _ _) as [[[h voxels] sizes]|]; simpl; [|done].
  rewrite createNew_ok by done. simpl.
  destruct ul as [unmerge|]; simpl; [|done].
  unfold assign. simpl.
  destruct gt as [gt|]; simpl; rewrite !alter_insert_eq; simpl; done.
Qed.

Lemma initialize_registry_ok (w : World) width height depth affs p gt lo hi ff ul
    state w' :
  registry_ok (registry w) ->
  initialize w width height depth affs p gt lo hi ff ul = Ok (state, w') ->
  registry_ok (registry w').
Proof.
  intros Hok. destruct (decide (_nextId (registry w) = INT_MAX)) as [Hmax|Hmax].
  - unfold initialize.
    destruct (fragments _ _ _ _ _ _ _) as [[[h voxels] sizes]|]; simpl; [|done].
    unfold createNew. by rewrite bool_decide_eq_true_2.
  - rewrite initialize_normal by done. simpl.
    destruct (fragments _ _ _ _ _ _ _) as [[[h voxels] sizes]|]; simpl; [|done].
    destruct ul as [unmerge|]; simpl; [|done].
    intros [= <- <-]. simpl. by apply insert_registry_ok.
Qed.

(** The history of a [mergeUntil] is decided by the engine state, the
    unmerge list and the ground truth kept in the context, and by the
    contents of the segmentation volume. *)
Lemma mergeUntil_history_local (wa wb : World) (sa sb : WaterzState)
    threshold ca cb pa pb n :
  get (registry wa) (context sa) = Some ca ->
  get (registry wb) (context sb) = Some cb ->
  regionMerging ca = regionMerging cb ->
  unmergeList ca = unmergeList cb ->
  groundtruth ca = groundtruth cb ->
  segmentation ca = Some (mkVolume pa n) ->
  segmentation cb = Some (mkVolume pb n) ->
  heap wa !! pa = heap wb !! pb ->
  ('(h, _, _) ← mergeUntil wa sa threshold; Ok h)
  = ('(h, _, _) ← mergeUntil wb sb threshold; Ok h).
Proof.
  intros Hga Hgb Hrm Hul Hgt Hsa Hsb Hheap. unfold mergeUntil.
  rewrite Hga, Hgb. simpl.
  assert (run_merging ca threshold = run_merging cb threshold) as ->
    by (unfold run_merging; by rewrite Hrm, Hul).
  destruct (run_merging cb threshold) as [[[merged vis] rm]|]; simpl; [|done].
  rewrite Hsa, Hsb, Hgt. simpl.
  case_bool_decide; simpl.
  - destruct (groundtruth cb); simpl; [|done].
    rewrite (read_volume_local _ _ pa pb n Hheap).
    by destruct (read_volume _ _).
  - rewrite (read_volume_local _ _ pa pb n Hheap).
    destruct (read_volume (heap wb) _) as [voxels|]; simpl; [|done].
    destruct (groundtruth cb); simpl; [|done].
    rewrite (read_volume_local _ _ pa pb n
               (write_volume_local _ _ pa pb n _ Hheap)).
    by destruct (read_volume _ _).
Qed.
End RunFacts.


(** The example worlds are states of a process. *)
Lemma world1_registry_ok : WaterzContext.registry_ok (registry Example.world1).
Proof.
  unfold Example.world1.
  destruct Example.line_initialized as [[state w]|f] eqn:E.
  - exact (initialize_registry_ok (B := Example.backend) Example.world0
             3 1 1 Example.line_affinities 100 None 0%Z 1000%Z false
             (Some Example.line_unmerge) state w registry_ok_initial E).
  - apply registry_ok_initial.
Qed.

(** ** What the constructor leaves in the two maps *)

Module RunsFacts.
Import UnmergeTracker UnmergeTrackerFacts Runs.

Lemma group_ids_of_tuple (tuple : list (list N)) gids g :
  Forall2 (fun G g => head G = Some g) tuple gids ->
  g ∈ gids ↔ exists G, G ∈ tuple ∧ head G = Some g.
Proof.
  intros Hall. split.
  - intros [i Hi]%list_elem_of_lookup.
    destruct (Forall2_lookup_r _ _ _ _ _ Hall Hi) as (G & HG & Hh).
    exists G. split; [|done]. apply list_elem_of_lookup. eauto.
  - intros (G & HG & Hh). eauto using Forall2_head_elem.
Qed.

Lemma collect_groups_result tuple mutex seg :
  ((exists out, collect_groups tuple mutex seg = Ok out) ∧ [] ∉ tuple) ∨
  (collect_groups tuple mutex seg = Fault OutOfRange ∧ [] ∈ tuple).
Proof.
  revert mutex seg. induction tuple as [|G tuple IH]; intros mutex seg; simpl.
  - left. split; [eauto|]. by intros ?%elem_of_nil.
  - destruct G as [|groupid G'].
    + right. split; [done|]. left.
    + destruct (IH (mutex ++ [groupid]) (tag_segids groupid (groupid :: G') seg))
        as [[Hok Hno]|[Hf Hin]].
      * left. split; [done|]. rewrite not_elem_of_cons. done.
      * right. split; [done|]. by right.
Qed.

Lemma build_result input_list seg anti :
  ((exists out, build input_list seg anti = Ok out) ∧
   forall tuple, tuple ∈ input_list -> [] ∉ tuple) ∨
  (build input_list seg anti = Fault OutOfRange ∧
   exists tuple, tuple ∈ input_list ∧ [] ∈ tuple).
Proof.
  revert seg anti.
  induction input_list as [|tuple rest IH]; intros seg anti; simpl.
  - left. split; [eauto|]. by intros tuple ?%elem_of_nil.
  - destruct (collect_groups_result tuple [] seg) as [[[[mutex seg1] ->] Hno]|[-> Hin]];
      simpl.
    + destruct (IH seg1 (link_antis mutex anti)) as [[Hok Hall]|[Hf (t' & Ht' & Hin)]].
      * left. split; [done|]. intros t' [->|Ht']%elem_of_cons; eauto.
      * right. split; [done|]. exists t'. split; [by right|done].
    + right. split; [done|]. exists tuple. split; [left|done].
Qed.

Lemma build_maps input_list seg anti seg' anti' :
  build input_list seg anti = Ok (seg', anti') ->
  (forall s g,
      g ∈ default [] (seg' !! s) ↔
      g ∈ default [] (seg !! s) ∨
      exists tuple G, tuple ∈ input_list ∧ G ∈ tuple ∧ head G = Some g ∧ s ∈ G) ∧
  (forall g h,
      h ∈ default [] (anti' !! g) ↔
      h ∈ default [] (anti !! g) ∨
      exists tuple G G', tuple ∈ input_list ∧ G ∈ tuple ∧ G' ∈ tuple ∧
                         head G = Some g ∧ head G' = Some h ∧ h ≠ g).
Proof.
  revert seg anti.
  induction input_list as [|tuple rest IH]; intros seg anti H; simpl in H.
  - injection H as <- <-. split.
    + intros s g. split; [auto|]. intros [?|(t' & ? & Ht' & _)]; [done|].
      by apply elem_of_nil in Ht'.
    + intros g h. split; [auto|]. intros [?|(t' & ? & ? & Ht' & _)]; [done|].
      by apply elem_of_nil in Ht'.
  - destruct (collect_groups tuple [] seg) as [[mutex seg1]|] eqn:E; [|done].
    simpl in H. apply IH in H as [Hseg Hanti].
    apply collect_groups_spec in E as (gids & -> & Hall & Hseg1). simpl in *.
    split.
    + intros s g. rewrite Hseg, Hseg1. split.
      * intros [[?|(G & HG & Hh & Hs)]|(t' & G & Ht' & HG & Hh & Hs)].
        -- by left.
        -- right. exists tuple, G. split; [left|done].
        -- right. exists t', G. split; [by right|done].
      * intros [?|(t' & G & [->|Ht']%elem_of_cons & HG & Hh & Hs)].
        -- by left; left.
        -- left; right. eauto.
        -- right. eauto 10.
    + intros g h. rewrite Hanti. unfold link_antis.
      rewrite link_antis_from_elem, !(group_ids_of_tuple tuple gids) by done.
      split.
      * intros [[?|((G & HG & Hg) & (G' & HG' & Hh) & Hne)]
               |(t' & G & G' & Ht' & HG & HG' & Hg & Hh & Hne)].
        -- by left.
        -- right. exists tuple, G, G'. split; [left|done].
        -- right. exists t', G, G'. split; [by right|done].
      * intros [?|(t' & G & G' & [->|Ht']%elem_of_cons & HG & HG' & Hg & Hh & Hne)].
        -- by left; left.
        -- left; right. eauto 10.
        -- right. eauto 10.
Qed.

(** ** Replaying merges *)

Lemma replay_snoc tr ms a b c :
  replay tr (ms ++ [(a, b, c)]) = onMerge (replay tr ms) a b c.
Proof. unfold replay. by rewrite foldl_snoc. Qed.

Lemma regions_snoc ms a b c x :
  regions (ms ++ [(a, b, c)]) x =
  if bool_decide (x = c) then regions ms a ++ regions ms b else regions ms x.
Proof. unfold regions. by rewrite foldl_snoc. Qed.

Lemma replay_wf tr ms : wf tr -> wf (replay tr ms).
Proof.
  intros Hwf. induction ms as [|[[a b] c] ms IH] using rev_ind; [done|].
  rewrite replay_snoc. by apply onMerge_wf.
Qed.

Lemma replay_antis tr ms g : antis (replay tr ms) g = antis tr g.
Proof.
  induction ms as [|[[a b] c] ms IH] using rev_ind; [done|].
  by rewrite replay_snoc, onMerge_antis.
Qed.

Lemma replay_groups tr ms x g :
  wf tr -> survivors_ok ms ->
  g ∈ groups (replay tr ms) x ↔ exists s, s ∈ regions ms x ∧ g ∈ groups tr s.
Proof.
  intros Hwf. revert x.
  induction ms as [|[[a b] c] ms IH] using rev_ind; intros x Hok.
  - simpl. split; [intros ?; exists x; split; [left|done]|].
    by intros (s & ->%list_elem_of_singleton & ?).
  - apply Forall_app in Hok as [Hok Hc]. rewrite Forall_singleton in Hc.
    simpl in Hc. rewrite replay_snoc, regions_snoc.
    pose proof (replay_wf tr ms Hwf) as Hwf'.
    case_bool_decide as Hx.
    + subst x. rewrite onMerge_groups_survivor by done.
      rewrite elem_of_app, !IH by done. setoid_rewrite elem_of_app. naive_solver.
    + rewrite onMerge_groups_other by done. by apply IH.
Qed.

Lemma approved_survivors_ok tr ms : approved tr ms -> survivors_ok ms.
Proof.
  induction 1 as [|ms a b c _ IH _ Hc]; [constructor|].
  apply Forall_app. split; [done|]. by apply Forall_singleton.
Qed.

(** Conflicts between what has been merged are conflicts between seeds. *)
Lemma replay_conflict tr ms x y :
  wf tr -> survivors_ok ms ->
  conflict (replay tr ms) x y ↔
  exists s s', s ∈ regions ms x ∧ s' ∈ regions ms y ∧ conflict tr s s'.
Proof.
  intros Hwf Hok. unfold conflict. setoid_rewrite replay_antis.
  setoid_rewrite (replay_groups tr ms) ; [|done..]. naive_solver.
Qed.

(** ** The maps of a fresh tracker, in terms of the input list *)

Lemma new_maps input_list tr :
  new input_list = Ok tr ->
  (forall s g,
      g ∈ groups tr s ↔
      exists tuple G, tuple ∈ input_list ∧ G ∈ tuple ∧ head G = Some g ∧ s ∈ G) ∧
  (forall g h,
      h ∈ antis tr g ↔
      exists tuple G G', tuple ∈ input_list ∧ G ∈ tuple ∧ G' ∈ tuple ∧
                         head G = Some g ∧ head G' = Some h ∧ h ≠ g).
Proof.
  unfold new. destruct input_list as [|t0 rest].
  - intros [= <-]. split.
    + intros s g. rewrite groups_default. simpl. rewrite lookup_empty. simpl.
      split; [by intros ?%elem_of_nil|]. intros (t' & ? & Ht' & _).
      by apply elem_of_nil in Ht'.
    + intros g h. rewrite antis_default. simpl. rewrite lookup_empty. simpl.
      split; [by intros ?%elem_of_nil|]. intros (t' & ? & ? & Ht' & _).
      by apply elem_of_nil in Ht'.
  - destruct (build (t0 :: rest) ∅ ∅) as [[seg anti]|] eqn:E; [|done].
    intros [= <-]. apply build_maps in E as [Hseg Hanti]. split.
    + intros s g. rewrite groups_default. simpl. rewrite Hseg, lookup_empty. simpl.
      rewrite elem_of_nil. split; [by intros [[]|?]|auto].
    + intros g h. rewrite antis_default. simpl. rewrite Hanti, lookup_empty. simpl.
      rewrite elem_of_nil. split; [by intros [[]|?]|auto].
Qed.

Lemma apart_conflict input_list tr s s' :
  new input_list = Ok tr -> apart input_list s s' -> conflict tr s s'.
Proof.
  intros [Hg Ha]%new_maps (tuple & G & G' & g & g' & Ht & HG & HG' & Hh & Hh' & Hne & Hs & Hs').
  exists g, g'.
  split; [apply (proj2 (Hg s g)); exists tuple, G; done|].
  split; [|apply (proj2 (Hg s' g')); exists tuple, G'; done].
  apply (proj2 (Ha g g')). exists tuple, G, G'. repeat split; done.
Qed.

(** In a list of approved merges, two seeds under one id conflict only
    when they are one seed that conflicts with itself. *)
Lemma approved_regions_conflict tr ms x s s' :
  wf tr -> approved tr ms ->
  s ∈ regions ms x -> s' ∈ regions ms x -> conflict tr s s' -> s = s'.
Proof.
  intros Hwf Happ. revert x s s'.
  induction Happ as [|ms a b c Happ IH Hvalid Hc]; intros x s s'.
  - simpl. by intros ->%list_elem_of_singleton ->%list_elem_of_singleton.
  - rewrite regions_snoc. case_bool_decide as Hx; [|by apply IH].
    pose proof (approved_survivors_ok _ _ Happ) as Hok.
    assert (¬ conflict (replay tr ms) a b) as Hno.
    { intros Hcf. apply isValidMerge_false in Hcf; [|by apply replay_wf].
      congruence. }
    rewrite replay_conflict in Hno by done.
    intros [Hs|Hs]%elem_of_app [Hs'|Hs']%elem_of_app Hcf.
    + by apply (IH a).
    + destruct Hno. eauto.
    + destruct Hno. exists s', s. split; [done|]. split; [done|].
      by apply conflict_sym.
    + by apply (IH b).
Qed.

Lemma new_empty_group input_list :
  (exists tuple, tuple ∈ input_list ∧ [] ∈ tuple) ->
  new input_list = Fault OutOfRange.
Proof.
  intros (tuple & Ht & Hin). unfold new.
  destruct input_list as [|t0 rest]; [by apply elem_of_nil in Ht|].
  destruct (build_result (t0 :: rest) ∅ ∅) as [[_ Hall]|[-> _]]; [|done].
  by apply Hall in Ht.
Qed.

End RunsFacts.

(** ** The calls of the interface, taken apart *)

Section ApiFacts.
Context `{B : Backend}.

Lemma write_volume_other (h : gmap N (list N)) vol voxels p :
  p ≠ data vol -> write_volume h vol voxels !! p = h !! p.
Proof.
  intros Hp. unfold write_volume. destruct (h !! data vol); [|done].
  by rewrite lookup_insert_ne.
Qed.

Lemma initialize_ok_inv (w : World) width height depth affs p gt lo hi ff ul
    state w' :
  WaterzContext.registry_ok (registry w) ->
  initialize w width height depth affs p gt lo hi ff ul = Ok (state, w') ->
  exists h voxels sizes unmerge rm,
    WaterzContext._nextId (registry w) ≠ WaterzContext.INT_MAX ∧
    fragments (heap w) (width, height, depth) affs
      (mkVolume p ((width * height * depth) mod SIZE_MOD)) lo hi ff
    = Ok (h, voxels, sizes) ∧
    ul = Some unmerge ∧
    state = mkState (WaterzContext._nextId (registry w)) None ∧
    w' = mkWorld
           (WaterzContext.mkStatics
              (<[WaterzContext._nextId (registry w) :=
                   WaterzContext.mk (WaterzContext._nextId (registry w)) (Some rm)
                     (Some (mkVolume p ((width * height * depth) mod SIZE_MOD)))
                     gt unmerge]>
                 (WaterzContext._contexts (registry w)))
              (WaterzContext._nextId (registry w) + 1)%Z) h.
Proof.
  intros Hok.
  destruct (decide (WaterzContext._nextId (registry w) = WaterzContext.INT_MAX))
    as [Hmax|Hmax].
  - unfold initialize.
    destruct (fragments _ _ _ _ _ _ _) as [[[h voxels] sizes]|]; simpl; [|done].
    unfold WaterzContext.createNew. by rewrite bool_decide_eq_true_2.
  - rewrite initialize_normal by done. simpl.
    destruct (fragments _ _ _ _ _ _ _) as [[[h voxels] sizes]|]; simpl; [|done].
    destruct ul as [unmerge|]; simpl; [|done].
    intros [= <- <-]. eauto 10.
Qed.

Lemma mergeUntil_ok_inv (w : World) (state : WaterzState) threshold
    history state' w' :
  mergeUntil w state threshold = Ok (history, state', w') ->
  exists ctx merged vis rm hp m,
    WaterzContext.get (registry w) (context state) = Some ctx ∧
    run_merging ctx threshold = Ok (merged, vis, rm) ∧
    history = _history vis ∧
    state' = mkState (context state) m ∧
    w' = mkWorld
           (WaterzContext.mkStatics
              (<[context state :=
                   WaterzContext.mk (WaterzContext.id ctx) (Some rm)
                     (WaterzContext.segmentation ctx)
                     (WaterzContext.groundtruth ctx)
                     (WaterzContext.unmergeList ctx)]>
                 (WaterzContext._contexts (registry w)))
              (WaterzContext._nextId (registry w))) hp ∧
    ((merged = 0%nat ∧ hp = heap w) ∨
     (merged ≠ 0%nat ∧ exists vol voxels,
        WaterzContext.segmentation ctx = Some vol ∧
        read_volume (heap w) vol = Ok voxels ∧
        hp = write_volume (heap w) vol (extractSegmentation rm voxels))) ∧
    match WaterzContext.groundtruth ctx with
    | Some gt =>
        exists vol v,
          WaterzContext.segmentation ctx = Some vol ∧
          read_volume hp vol = Ok v ∧ m = Some (compare_volumes gt v)
    | None => m = metrics state
    end.
Proof.
  unfold mergeUntil.
  destruct (WaterzContext.get _ _) as [ctx|] eqn:Eg; simpl; [|done].
  destruct (run_merging ctx threshold) as [[[merged vis] rm]|] eqn:Er; simpl; [|done].
  intros H. exists ctx, merged, vis, rm.
  assert (exists hp,
    (if bool_decide (merged = 0%nat) then Ok (heap w)
     else segmentation ← deref (WaterzContext.segmentation ctx);
          voxels ← read_volume (heap w) segmentation;
          Ok (write_volume (heap w) segmentation (extractSegmentation rm voxels)))
    = Ok hp ∧
    ((merged = 0%nat ∧ hp = heap w) ∨
     (merged ≠ 0%nat ∧ exists vol voxels,
        WaterzContext.segmentation ctx = Some vol ∧
        read_volume (heap w) vol = Ok voxels ∧
        hp = write_volume (heap w) vol (extractSegmentation rm voxels))))
    as (hp & Hhp & Hcase).
  { destruct (decide (merged = 0%nat)) as [Hm|Hm].
    - rewrite bool_decide_eq_true_2 by done.
      exists (heap w). split; [done|]. by left.
    - rewrite bool_decide_eq_false_2 in H by done.
      rewrite bool_decide_eq_false_2 by done.
      destruct (WaterzContext.segmentation ctx) as [vol|]; simpl in *; [|done].
      destruct (read_volume (heap w) vol) as [voxels|] eqn:Ev; simpl in *; [|done].
      eexists. split; [done|]. right. split; [done|].
      exists vol, voxels. done. }
  rewrite Hhp in H. simpl in H.
  destruct (WaterzContext.groundtruth ctx) as [gt|]; simpl in H.
  - destruct (WaterzContext.segmentation ctx) as [vol|]; simpl in H; [|done].
    destruct (read_volume hp vol) as [v|] eqn:Ev; simpl in H; [|done].
    injection H as <- <- <-. exists hp, (Some (compare_volumes gt v)).
    repeat split; try done. exists vol, v. done.
  - injection H as <- <- <-. exists hp, (metrics state). repeat split; done.
Qed.

Lemma foldl_bump_fault f (voxels : list N) :
  foldl bump (Fault f) voxels = Fault f.
Proof. induction voxels as [|s voxels IH]; [done|]. simpl. exact IH. Qed.




Lemma fragments_supplied (h : gmap N (list N)) dims affs vol lo hi S :
  read_volume h vol = Ok S ->
  fragments h dims affs vol lo hi false =
  (sizes ← count_sizes (default [] (h !! data vol)) S; Ok (h, S, sizes)).
Proof. unfold fragments. by intros ->. Qed.

Lemma count_sizes_largest_id (buffer S : list N) :
  Forall (fun s => s < SIZE_MOD) S ->
  SIZE_MOD - 1 ∈ S ->
  count_sizes buffer S = Fault OutOfRange.
Proof.
  intros Hall Hin.
  assert (max_id S = SIZE_MOD - 1) as Hmax.
  { pose proof (max_id_bound S _ Hin) as Hle.
    assert (S ≠ []) as Hne by (intros ->; by apply elem_of_nil in Hin).
    pose proof (max_id_elem S Hne) as Hm.
    apply (proj1 (list.Forall_forall _ _) Hall) in Hm. unfold SIZE_MOD in *. lia. }
  destruct S as [|x xs]; [by apply elem_of_nil in Hin|].
  unfold count_sizes. rewrite max_element_max_id, Hmax.
  replace ((SIZE_MOD - 1 + 1) mod SIZE_MOD) with 0
    by (unfold SIZE_MOD; vm_compute; reflexivity).
  simpl. apply foldl_bump_fault.
Qed.

End ApiFacts.

(** ** The tracker's contract *)

Module TrackerClaims.
Import UnmergeTracker UnmergeTrackerFacts.

(** C2: in every state the class can reach, [isValidMerge a b] answers
    false exactly when some group id in the group list of [a] has an
    anti-partner that occurs in the group list of [b], and true
    otherwise. *)
Theorem isValidMerge_rejects_iff_conflict (tr : t) (a b : N) :
  reachable tr ->
  (isValidMerge tr a b = false ↔
     exists g h, g ∈ groups tr a ∧ h ∈ antis tr g ∧ h ∈ groups tr b) ∧
  (isValidMerge tr a b = true ↔
     ¬ exists g h, g ∈ groups tr a ∧ h ∈ antis tr g ∧ h ∈ groups tr b).
Proof.
  intros Hwf%reachable_wf.
  pose proof (isValidMerge_false tr a b Hwf) as H. unfold conflict in H.
  split; [done|]. rewrite <- H. by destruct (isValidMerge tr a b).
Qed.

Lemma isValidMerge_rejects_iff_conflict_witness :
  exists tr, new Example.sample_list = Ok tr ∧
    isValidMerge tr 2 3 = false ∧
    exists g h, g ∈ groups tr 2 ∧ h ∈ antis tr g ∧ h ∈ groups tr 3.
Proof.
  eexists. split; [vm_compute; reflexivity|].
  match goal with |- isValidMerge ?tr _ _ = _ ∧ _ =>
    assert (reachable tr) as Hr
      by (apply (reachable_new Example.sample_list); vm_compute; reflexivity);
    destruct (isValidMerge_rejects_iff_conflict tr 2 3 Hr) as [[H _] _]
  end.
  split; [vm_compute; reflexivity|]. apply H. vm_compute. reflexivity.
Defined.

(** C5, as the constructor builds it: within every tuple of the input, the
    anti list of the group id of one coherent group contains the group id
    of every other coherent group of the tuple whose group id is a
    different number; and a group id is never put into its own anti
    list. *)
Theorem anti_lists_link_distinct_group_ids
    (input_list : list (list (list N))) (tr : t) :
  new input_list = Ok tr ->
  distinct_pairs_linked input_list tr ∧ forall g, g ∉ antis tr g.
Proof.
  intros Hn. split.
  - intros tuple i j G G' g g' Hin HG HG' _ Hg Hg' Hne.
    apply (proj2 (RunsFacts.new_maps _ _ Hn)).
    exists tuple, G, G'. repeat split; try done; apply list_elem_of_lookup; eauto.
  - intros g Hg. apply (proj2 (RunsFacts.new_maps _ _ Hn)) in Hg.
    by destruct Hg as (? & ? & ? & ? & ? & ? & ? & ? & Hne).
Qed.

Lemma anti_lists_link_distinct_group_ids_witness :
  exists tr, new Example.sample_list = Ok tr ∧
    3 ∈ antis tr 1 ∧ 1 ∈ antis tr 3 ∧ (1 ∉ antis tr 1) ∧ (3 ∉ antis tr 3).
Proof.
  eexists. split; [vm_compute; reflexivity|].
  match goal with |- _ ∈ antis ?tr _ ∧ _ =>
    assert (new Example.sample_list = Ok tr) as Hn by (vm_compute; reflexivity);
    destruct (anti_lists_link_distinct_group_ids Example.sample_list tr Hn)
      as [H Hirr]
  end.
  assert (Hin : [[1; 2]; [3]] ∈ Example.sample_list) by left.
  split; [|split; [|split]].
  - exact (H [[1; 2]; [3]] 0%nat 1%nat [1; 2] [3] 1 3
             Hin eq_refl eq_refl ltac:(lia) eq_refl eq_refl ltac:(lia)).
  - exact (H [[1; 2]; [3]] 1%nat 0%nat [3] [1; 2] 3 1
             Hin eq_refl eq_refl ltac:(lia) eq_refl eq_refl ltac:(lia)).
  - exact (Hirr 1).
  - exact (Hirr 3).
Defined.

(** C5 as stated fails when two coherent groups of a tuple start with the
    same seed: both get group id 1, the constructor leaves a group id out
    of its own anti list, and the anti list of 1 stays empty. *)
Lemma every_pair_linked_fails :
  exists tr, new [[[1; 2]; [1; 3]]] = Ok tr ∧
             ¬ every_pair_linked [[[1; 2]; [1; 3]]] tr.
Proof.
  eexists. split; [vm_compute; reflexivity|].
  intros H.
  specialize (H [[1; 2]; [1; 3]] 0%nat 1%nat [1; 2] [1; 3] 1 1).
  assert (Hin : [[1; 2]; [1; 3]] ∈ [[[1; 2]; [1; 3]]]) by left.
  specialize (H Hin eq_refl eq_refl ltac:(lia) eq_refl eq_refl).
  vm_compute in H. by apply elem_of_nil in H.
Qed.

(** C6: for a survivor [c] that is [a] or [b], [onMerge a b c] makes the
    group list of [c] the concatenation of the group lists of [a] and [b]
    (duplicates kept), leaves every other group list and the anti lists
    alone, and [isValidMerge] stays exact for the merged membership: it
    rejects a pair exactly when their new group lists conflict, so the
    survivor is rejected against [x] exactly when [a] or [b] was. *)
Theorem onMerge_unions_group_lists (tr : t) (a b c : N) :
  reachable tr -> c = a ∨ c = b ->
  groups (onMerge tr a b c) c = groups tr a ++ groups tr b ∧
  (forall x, x ≠ c -> groups (onMerge tr a b c) x = groups tr x) ∧
  (forall g, antis (onMerge tr a b c) g = antis tr g) ∧
  (forall x y, isValidMerge (onMerge tr a b c) x y = false ↔
               conflict (onMerge tr a b c) x y) ∧
  (forall x, x ≠ c ->
     isValidMerge (onMerge tr a b c) c x =
     isValidMerge tr a x && isValidMerge tr b x).
Proof.
  intros Hwf%reachable_wf Hc.
  pose proof (onMerge_wf tr a b c Hwf) as Hwf'.
  split; [by apply onMerge_groups_survivor|].
  split; [by intros; apply onMerge_groups_other|].
  split; [by intros; apply onMerge_antis|].
  split; [by intros; apply isValidMerge_false|].
  intros x Hx. apply bool_eq_by_false.
  rewrite andb_false_iff, !isValidMerge_false by done. unfold conflict.
  setoid_rewrite onMerge_antis.
  rewrite onMerge_groups_survivor, (onMerge_groups_other tr a b c x) by done.
  setoid_rewrite elem_of_app. naive_solver.
Qed.

Lemma onMerge_unions_group_lists_witness :
  exists tr, new Example.sample_list = Ok tr ∧
    groups (onMerge tr 1 2 1) 1 = [1; 1] ∧
    isValidMerge (onMerge tr 1 2 1) 1 3 = false ∧
    isValidMerge (onMerge tr 1 2 1) 1 4 = true.
Proof.
  eexists. split; [vm_compute; reflexivity|].
  match goal with |- groups (onMerge ?tr _ _ _) _ = _ ∧ _ =>
    assert (reachable tr) as Hr
      by (apply (reachable_new Example.sample_list); vm_compute; reflexivity);
    destruct (onMerge_unions_group_lists tr 1 2 1 Hr (or_introl eq_refl))
      as (Hg & _ & _ & _ & Hv)
  end.
  split; [|split].
  - rewrite Hg. vm_compute. reflexivity.
  - rewrite (Hv 3) by lia. vm_compute. reflexivity.
  - rewrite (Hv 4) by lia. vm_compute. reflexivity.
Defined.

(** C8: in every state reachable by the constructor and [onMerge],
    [isValidMerge] gives the same answer for [(a, b)] and [(b, a)]; the
    anti lists built by the constructor are symmetric. *)
Theorem isValidMerge_symmetric (tr : t) (a b : N) :
  reachable tr -> isValidMerge tr a b = isValidMerge tr b a.
Proof.
  intros Hwf%reachable_wf. apply bool_eq_by_false.
  rewrite !isValidMerge_false by done. split; by apply conflict_sym.
Qed.

Lemma isValidMerge_symmetric_witness :
  exists tr, new Example.sample_list = Ok tr ∧
    isValidMerge (onMerge tr 4 2 4) 4 3 = isValidMerge (onMerge tr 4 2 4) 3 4 ∧
    isValidMerge (onMerge tr 4 2 4) 3 4 = false.
Proof.
  eexists. split; [vm_compute; reflexivity|].
  split; [|vm_compute; reflexivity].
  apply isValidMerge_symmetric. apply reachable_onMerge.
  apply (reachable_new Example.sample_list). vm_compute. reflexivity.
Defined.

End TrackerClaims.

(** ** The frontend's contract *)

Module FrontendClaims.




(** C3, as the code has it: whatever the other arguments are,
    [initialize] with the unmerge list omitted does not return a state; it
    ends by reading through the null pointer. *)
Theorem initialize_reads_omitted_unmerge_list `{B : Backend}
    (w : World) (width height depth : N) (affs : list AffValue) (p : N)
    (gt : option (list N)) (lo hi : AffValue) (ff : bool) :
  exists f, initialize w width height depth affs p gt lo hi ff None = Fault f.
Proof.
  unfold initialize.
  destruct (fragments _ _ _ _ _ _ _) as [[[h voxels] sizes]|]; simpl; [|by eauto].
  destruct (WaterzContext.createNew _) as [[[context_id registered] r]|]; simpl; by eauto.
Qed.

(** The line example: with the list supplied the call returns, without
    it the null pointer is read. *)
Lemma initialize_line_null_list :
  Example.fault_of Example.line_initialized = None ∧
  Example.fault_of
    (initialize (B := Example.backend) Example.world0 3 1 1
       Example.line_affinities 100 None 0%Z 1000%Z false None)
  = Some NullDeref.
Proof. split; vm_compute; reflexivity. Qed.

(** C9: with an engine that counts the merges it reports to the visitor,
    a call to [mergeUntil] that returns an empty history leaves the arrays
    of the caller, the segmentation volume of the context among them, as
    they were before the call. *)
Theorem mergeUntil_without_merges_keeps_volume `{B : Backend}
    (w w' : World) (state state' : WaterzState)
    (threshold : ScoreValue) (history : list (Merge.t ScoreValue)) :
  counts_merges B ->
  mergeUntil w state threshold = Ok (history, state', w') ->
  history = [] ->
  heap w' = heap w.
Proof.
  intros Hlaw. unfold mergeUntil.
  destruct (WaterzContext.get _ _) as [ctx|]; simpl; [|done].
  destruct (run_merging ctx threshold) as [[[merged vis] rm]|] eqn:E;
    simpl; [|done].
  apply run_merging_counts in E; [|done].
  intros H Hnil.
  assert (merged = 0%nat) as ->.
  { destruct (if bool_decide (merged = 0%nat) then _ else _) as [h|];
      simpl in H; [|done].
    destruct (match WaterzContext.groundtruth ctx with Some _ => _ | None => _ end);
      simpl in H; [|done].
    injection H as Hh _ _. rewrite <- E, Hh, Hnil. done. }
  simpl in H.
  destruct (match WaterzContext.groundtruth ctx with Some _ => _ | None => _ end);
    simpl in H; [|done].
  by injection H as _ _ <-.
Qed.

Lemma mergeUntil_without_merges_keeps_volume_witness :
  match mergeUntil (B := Example.backend) Example.world1 Example.state1 100%Z with
  | Ok (history, _, w') => history = [] ∧ heap w' = heap Example.world1
  | Fault _ => False
  end.
Proof.
  assert (Example.history_of
            (mergeUntil (B := Example.backend) Example.world1 Example.state1 100%Z)
          = Some []) as Hh by (vm_compute; reflexivity).
  destruct (mergeUntil (B := Example.backend) Example.world1 Example.state1 100%Z)
    as [[[history state'] w']|f] eqn:E; simpl in Hh; [|discriminate].
  injection Hh as Hh. split; [exact Hh|].
  exact (mergeUntil_without_merges_keeps_volume (B := Example.backend)
           Example.world1 w' Example.state1 state' 100%Z history
           example_counts_merges E Hh).
Defined.

(** C10: after [free] the registry has no context under the id of the
    state, a second [free] on the same id changes nothing, in the registry
    or elsewhere, and [get] finds nothing under an id that was never
    handed out. *)
Theorem free_is_idempotent `{B : Backend} (w : World) (state : WaterzState) :
  WaterzContext.registry_ok (registry w) ->
  WaterzContext.get (registry (free w state)) (context state) = None ∧
  WaterzContext.free (WaterzContext.free (registry w) (context state))
                     (context state)
  = WaterzContext.free (registry w) (context state) ∧
  free (free w state) state = free w state ∧
  (forall k, ¬ WaterzContext.issued (registry w) k ->
             WaterzContext.get (registry w) k = None).
Proof.
  intros Hok. unfold free. simpl.
  split; [apply get_free|]. split; [apply free_free|].
  split; [by rewrite free_free|].
  intros k. by apply get_not_issued.
Qed.

Lemma free_is_idempotent_witness :
  WaterzContext.id <$> WaterzContext.get (registry Example.world1) 0 = Some 0%Z ∧
  WaterzContext.get (registry (free Example.world1 Example.state1)) 0 = None ∧
  free (free Example.world1 Example.state1) Example.state1
  = free Example.world1 Example.state1 ∧
  WaterzContext.get (registry Example.world1) 1 = None.
Proof.
  destruct (free_is_idempotent (B := Example.backend) Example.world1
              Example.state1 world1_registry_ok) as (H1 & _ & H3 & H4).
  split; [vm_compute; reflexivity|].
  split; [exact H1|]. split; [exact H3|].
  apply H4. unfold WaterzContext.issued. vm_compute. intros [_ H]. discriminate.
Defined.

(** X21: the merge history that [initialize] followed by [mergeUntil]
    returns does not depend on the state of the process: the contexts
    already registered, the id the run is given and the address of the
    segmentation array do not matter, only the contents of that array and
    the arguments. *)
Theorem run_history_ignores_process_state `{B : Backend}
    (w1 w2 : World) (width height depth : N)
    (affs : list AffValue) (p1 p2 : N) (gt : option (list N))
    (lo hi : AffValue) (ff : bool) (ul : option (list (list (list N))))
    (threshold : ScoreValue) :
  WaterzContext.registry_ok (registry w1) ->
  WaterzContext.registry_ok (registry w2) ->
  WaterzContext._nextId (registry w1) ≠ WaterzContext.INT_MAX ->
  WaterzContext._nextId (registry w2) ≠ WaterzContext.INT_MAX ->
  heap w1 !! p1 = heap w2 !! p2 ->
  run_history w1 width height depth affs p1 gt lo hi ff ul threshold
  = run_history w2 width height depth affs p2 gt lo hi ff ul threshold.
Proof.
  intros Hok1 Hok2 Hmax1 Hmax2 Hheap. unfold run_history.
  rewrite !initialize_normal by done. simpl.
  pose proof (fragments_local (heap w1) (heap w2) p1 p2
                ((width * height * depth) mod SIZE_MOD)
                (width, height, depth) affs lo hi ff Hheap) as Hfr.
  destruct (fragments (heap w1) _ _ _ _ _ _) as [[[h1 v1] s1]|],
           (fragments (heap w2) _ _ _ _ _ _) as [[[h2 v2] s2]|];
    simpl; try done; [|by subst].
  destruct Hfr as (-> & -> & Hh).
  destruct ul as [unmerge|]; simpl; [|done].
  eapply (mergeUntil_history_local _ _ _ _ threshold _ _ p1 p2
            ((width * height * depth) mod SIZE_MOD)).
  - unfold WaterzContext.get. simpl. apply lookup_insert_eq.
  - unfold WaterzContext.get. simpl. apply lookup_insert_eq.
  - done.
  - done.
  - done.
  - done.
  - done.
  - done.
Qed.

Lemma run_history_ignores_process_state_witness :
  run_history (B := Example.backend) Example.world0 3 1 1
    Example.line_affinities 100 None 0%Z 1000%Z false
    (Some Example.line_unmerge) 1000%Z
  = run_history (B := Example.backend) Example.world_later 3 1 1
      Example.line_affinities 200 None 0%Z 1000%Z false
      (Some Example.line_unmerge) 1000%Z
  ∧ run_history (B := Example.backend) Example.world_later 3 1 1
      Example.line_affinities 200 None 0%Z 1000%Z false
      (Some Example.line_unmerge) 1000%Z
    = Ok [Merge.mk 1 2 1 200%Z].
Proof.
  split; [|vm_compute; reflexivity].
  apply (run_history_ignores_process_state (B := Example.backend)).
  - apply registry_ok_initial.
  - exact world1_registry_ok.
  - vm_compute. discriminate.
  - vm_compute. discriminate.
  - vm_compute. reflexivity.
Defined.

(** Without constraints the line resumes as the claim says: the two
    histories, concatenated, and the final volume are those of the direct
    call. *)
Lemma line_unconstrained_resumes :
  Example.line_direct_outcome [] 1000%Z
  = Some ([Merge.mk 1 2 1 200%Z; Merge.mk 1 3 1 600%Z], Some [1; 1; 1]) ∧
  Example.line_resumed_outcome [] 400%Z 1000%Z
  = Some ([Merge.mk 1 2 1 200%Z], [Merge.mk 1 3 1 600%Z], Some [1; 1; 1]).
Proof. split; vm_compute; reflexivity. Qed.

(** C1 on the line example with seeds 2 and 3 kept apart.  Direct: one
    call with threshold 1.0 merges 2 into 1 at score 0.2 and then refuses
    to merge 3; the volume ends as 1, 1, 3.  Resumed: the call with
    threshold 0.4 merges 2 into 1; the call with threshold 1.0 builds its
    tracker anew from the list in the context, which no longer knows that
    region 1 contains seed 2, and merges 3 into it.  The concatenated
    history has a second entry and the volume ends as 1, 1, 1.  The
    tracker that lived through the first merge rejects the pair (1, 3);
    the rebuilt one accepts it. *)
Theorem resumed_run_differs_from_direct_run :
  Example.line_direct_outcome Example.line_unmerge 1000%Z
  = Some ([Merge.mk 1 2 1 200%Z], Some [1; 1; 3]) ∧
  Example.line_resumed_outcome Example.line_unmerge 400%Z 1000%Z
  = Some ([Merge.mk 1 2 1 200%Z], [Merge.mk 1 3 1 600%Z], Some [1; 1; 1]) ∧
  exists tr, UnmergeTracker.new Example.line_unmerge = Ok tr ∧
    UnmergeTracker.isValidMerge (UnmergeTracker.onMerge tr 1 2 1) 1 3 = false ∧
    UnmergeTracker.isValidMerge tr 1 3 = true.
Proof.
  split; [vm_compute; reflexivity|]. split; [vm_compute; reflexivity|].
  eexists. split; [vm_compute; reflexivity|].
  split; vm_compute; reflexivity.
Qed.

End FrontendClaims.

(** ** More about the tracker *)

Module TrackerExtras.
Import UnmergeTracker UnmergeTrackerFacts Runs RunsFacts.

(** X1: the constructor fails exactly when some coherent group of the
    list is empty, by reading element 0 of an empty vector; on every other
    list, the empty one included, it returns a tracker. *)
Theorem constructor_fails_iff_empty_group (input_list : list (list (list N))) :
  (new input_list = Fault OutOfRange ↔
     exists tuple, tuple ∈ input_list ∧ [] ∈ tuple) ∧
  ((exists tr, new input_list = Ok tr) ↔
     forall tuple, tuple ∈ input_list -> [] ∉ tuple).
Proof.
  unfold new. destruct input_list as [|t0 rest].
  - split.
    + split; [done|]. intros (tuple & Ht & _). by apply elem_of_nil in Ht.
    + split; [|eauto]. intros _ tuple Ht. by apply elem_of_nil in Ht.
  - destruct (build_result (t0 :: rest) ∅ ∅) as [[[[seg anti] ->] Hall]|[-> Hex]];
      simpl.
    + split.
      * split; [done|]. intros (tuple & Ht & Hin). by apply Hall in Ht.
      * split; [done|eauto].
    + split.
      * split; [done|]. done.
      * split; [by intros [tr ?]|]. intros Hall.
        destruct Hex as (tuple & Ht & Hin). by apply Hall in Ht.
Qed.

(** X2: after construction, the group list of a seg id holds exactly the
    first seeds of the coherent groups, of any tuple, that the seg id is a
    member of. *)
Theorem constructor_group_lists (input_list : list (list (list N))) (tr : t)
    (s g : N) :
  new input_list = Ok tr ->
  (g ∈ groups tr s ↔
   exists tuple G, tuple ∈ input_list ∧ G ∈ tuple ∧ head G = Some g ∧ s ∈ G).
Proof. intros [H _]%new_maps. apply H. Qed.

Lemma constructor_group_lists_witness :
  new cross_list = Ok (tracker_of cross_list) ∧
  1 ∈ groups (tracker_of cross_list) 7 ∧
  ¬ 3 ∈ groups (tracker_of cross_list) 7.
Proof.
  assert (new cross_list = Ok (tracker_of cross_list)) as Hn
    by (vm_compute; reflexivity).
  split; [exact Hn|]. split.
  - apply (constructor_group_lists cross_list _ 7 1 Hn).
    exists [[1; 7]; [3]], [1; 7]. unfold cross_list. repeat split; repeat constructor.
  - assert (groups (tracker_of cross_list) 7 = [1]) as ->
      by (vm_compute; reflexivity).
    intros H%list_elem_of_singleton. discriminate.
Defined.

(** X3: after construction, the anti list of a group id holds exactly the
    group ids, other than itself, of the groups that share a tuple with a
    group of that id; in particular it never holds the id itself. *)
Theorem constructor_anti_lists (input_list : list (list (list N))) (tr : t)
    (g h : N) :
  new input_list = Ok tr ->
  (h ∈ antis tr g ↔
   exists tuple G G', tuple ∈ input_list ∧ G ∈ tuple ∧ G' ∈ tuple ∧
                      head G = Some g ∧ head G' = Some h ∧ h ≠ g) ∧
  g ∉ antis tr g.
Proof.
  intros [_ H]%new_maps. split; [apply H|].
  intros (? & ? & ? & ? & ? & ? & ? & ? & Hne)%H. done.
Qed.

Lemma constructor_anti_lists_witness :
  new cross_list = Ok (tracker_of cross_list) ∧
  2 ∈ antis (tracker_of cross_list) 1 ∧
  3 ∈ antis (tracker_of cross_list) 1 ∧
  1 ∉ antis (tracker_of cross_list) 1.
Proof.
  assert (new cross_list = Ok (tracker_of cross_list)) as Hn
    by (vm_compute; reflexivity).
  split; [exact Hn|].
  split; [|split].
  - apply (constructor_anti_lists cross_list _ 1 2 Hn).
    exists [[1; 5]; [2]], [1; 5], [2]. unfold cross_list.
    repeat split; try done; repeat constructor.
  - apply (constructor_anti_lists cross_list _ 1 3 Hn).
    exists [[1; 7]; [3]], [1; 7], [3]. unfold cross_list.
    repeat split; try done; repeat constructor.
  - apply (constructor_anti_lists cross_list _ 1 1 Hn).
Defined.

(** X4: a fresh tracker rejects the merge of [a] and [b] whenever [a] is
    in a coherent group with first seed [g], [b] in one with first seed
    [h], and two groups with these first seeds share a tuple.  The group
    of [a] need not be in that tuple: members of a group inherit the
    anti-partners of every group that starts with the same seed. *)
Theorem members_inherit_anti_partners
    (input_list : list (list (list N))) (tr : t)
    (tuple1 tuple : list (list N)) (G1 G G' : list N) (g h a b : N) :
  new input_list = Ok tr ->
  tuple1 ∈ input_list -> G1 ∈ tuple1 -> head G1 = Some g -> a ∈ G1 ->
  tuple ∈ input_list -> G ∈ tuple -> G' ∈ tuple ->
  head G = Some g -> head G' = Some h -> h ≠ g -> b ∈ G' ->
  isValidMerge tr a b = false.
Proof.
  intros Hn Ht1 HG1 Hg1 Ha Ht HG HG' Hg Hh Hne Hb.
  apply isValidMerge_false; [by eapply new_wf|].
  destruct (new_maps _ _ Hn) as [Hgr Han].
  exists g, h.
  split; [apply (proj2 (Hgr a g)); exists tuple1, G1; done|].
  split; [|apply (proj2 (Hgr b h)); exists tuple, G'; done].
  apply (proj2 (Han g h)). exists tuple, G, G'. repeat split; done.
Qed.

Lemma members_inherit_anti_partners_witness :
  isValidMerge (tracker_of cross_list) 7 2 = false.
Proof.
  apply (members_inherit_anti_partners cross_list _
           [[1; 7]; [3]] [[1; 5]; [2]] [1; 7] [1; 5] [2] 1 2 7 2).
  - vm_compute. reflexivity.
  - unfold cross_list. repeat constructor.
  - repeat constructor.
  - reflexivity.
  - repeat constructor.
  - unfold cross_list. repeat constructor.
  - repeat constructor.
  - repeat constructor.
  - reflexivity.
  - reflexivity.
  - discriminate.
  - repeat constructor.
Defined.

(** X5: in every state whose flag is not set, reachable or not,
    [isValidMerge] rejects exactly the conflicting pairs: the vector that
    the loop carries over from a group with an anti list to one without
    never changes the answer. *)
Theorem isValidMerge_ignores_carried_list (tr : t) (a b : N) :
  _is_empty tr = false ->
  (isValidMerge tr a b = false ↔ conflict tr a b).
Proof.
  intros He. unfold isValidMerge, conflict. rewrite He.
  apply scan_groups_false. by intros h ?%elem_of_nil.
Qed.

Lemma isValidMerge_ignores_carried_list_witness :
  isValidMerge unlinked_tracker 1 2 = false ∧ conflict unlinked_tracker 1 2.
Proof.
  destruct (isValidMerge_ignores_carried_list unlinked_tracker 1 2 eq_refl)
    as [H _].
  split; [vm_compute; reflexivity|]. apply H. vm_compute. reflexivity.
Defined.

(** X6: after any list of merges whose survivors are among the merged
    ids, the group list of an id holds exactly the group ids of the seeds
    that the merges have put under it. *)
Theorem merged_group_lists_follow_regions (tr : t) (ms : list (N * N * N))
    (x g : N) :
  reachable tr -> survivors_ok ms ->
  (g ∈ groups (replay tr ms) x ↔ exists s, s ∈ regions ms x ∧ g ∈ groups tr s).
Proof. intros Hwf%reachable_wf Hok. by apply replay_groups. Qed.

Lemma merged_group_lists_follow_regions_witness :
  3 ∈ groups (replay (tracker_of Example.sample_list) [(4, 3, 4); (5, 4, 5)]) 5.
Proof.
  apply (merged_group_lists_follow_regions (tracker_of Example.sample_list)
           [(4, 3, 4); (5, 4, 5)] 5 3).
  - apply (reachable_new Example.sample_list). vm_compute. reflexivity.
  - repeat constructor.
  - exists 3. split; vm_compute; repeat constructor.
Defined.

(** X7: while one tracker lives, approved merges keep apart what the list
    sets apart: two different seeds that some tuple has in groups with
    different first seeds are never put under one id. *)
Theorem approved_merges_keep_seeds_apart
    (input_list : list (list (list N))) (tr : t) (ms : list (N * N * N))
    (x s s' : N) :
  new input_list = Ok tr -> approved tr ms ->
  apart input_list s s' -> s ≠ s' ->
  s ∈ regions ms x -> s' ∉ regions ms x.
Proof.
  intros Hn Happ Hap Hne Hs Hs'.
  apply Hne. eapply (approved_regions_conflict tr ms x); eauto using new_wf.
  by eapply apart_conflict.
Qed.

Lemma approved_merges_keep_seeds_apart_witness :
  approved (tracker_of Example.sample_list) ([(2, 4, 2)] ++ [(2, 1, 1)]) ∧
  3 ∉ regions ([(2, 4, 2)] ++ [(2, 1, 1)]) 1.
Proof.
  assert (approved (tracker_of Example.sample_list) ([(2, 4, 2)] ++ [(2, 1, 1)]))
    as Happ.
  { apply approved_snoc; [|vm_compute; reflexivity|by right].
    apply (approved_snoc _ [] 2 4 2); [constructor|vm_compute; reflexivity|by left]. }
  split; [exact Happ|].
  apply (approved_merges_keep_seeds_apart Example.sample_list
           (tracker_of Example.sample_list) ([(2, 4, 2)] ++ [(2, 1, 1)]) 1 2 3).
  - vm_compute. reflexivity.
  - exact Happ.
  - exists [[1; 2]; [3]], [1; 2], [3], 1, 3. unfold Example.sample_list.
    repeat split; try done; repeat constructor.
  - discriminate.
  - vm_compute. repeat constructor.
Defined.

End TrackerExtras.

(** ** More about the registry and the frontend *)

Module FrontendExtras.

(** X8: a visitor that is told a list of merges has appended exactly
    these entries to its history, in order, and has passed each of them to
    its tracker, if it has one. *)
Theorem visitor_records_every_merge `{B : Backend}
    (vis : MergeHistoryVisitor) (ms : list (Merge.t ScoreValue)) :
  _history (play vis ms) = _history vis ++ ms ∧
  _unmergeTracker (play vis ms)
  = (fun tr => Runs.replay tr (merge_ids <$> ms)) <$> _unmergeTracker vis.
Proof.
  induction ms as [|m ms IH] using rev_ind.
  - simpl. rewrite app_nil_r. split; [done|]. by destruct (_unmergeTracker vis).
  - unfold play in *. rewrite foldl_snoc. destruct IH as [IHh IHt].
    unfold visitor_onMerge at 1 3. simpl. rewrite IHh, IHt.
    split; [by destruct m; rewrite <- app_assoc|].
    rewrite fmap_app. simpl. destruct (_unmergeTracker vis); simpl; [|done].
    unfold Runs.replay. by rewrite foldl_snoc.
Qed.

(** X9: on a registry in order and below [INT_MAX], [createNew] hands out
    the id [_nextId], which no context had; afterwards [get] finds the new
    context with null members under it, every other id is as before, and
    the registry is in order again with the counter one higher. *)
Theorem createNew_registers_fresh_context `{B : Backend}
    (r : WaterzContext.statics) :
  WaterzContext.registry_ok r ->
  WaterzContext._nextId r ≠ WaterzContext.INT_MAX ->
  exists r',
    WaterzContext.createNew r = Ok (WaterzContext._nextId r, true, r') ∧
    WaterzContext.get r (WaterzContext._nextId r) = None ∧
    WaterzContext.get r' (WaterzContext._nextId r)
    = Some (WaterzContext.mk (WaterzContext._nextId r) None None None []) ∧
    (forall k, k ≠ WaterzContext._nextId r ->
               WaterzContext.get r' k = WaterzContext.get r k) ∧
    WaterzContext._nextId r' = (WaterzContext._nextId r + 1)%Z ∧
    WaterzContext.registry_ok r'.
Proof.
  intros Hok Hmax. rewrite createNew_ok by done. eexists. split; [done|].
  unfold WaterzContext.get. simpl.
  split; [apply get_not_issued; [done|]; unfold WaterzContext.issued; lia|].
  split; [apply lookup_insert_eq|].
  split; [by intros k Hk; rewrite lookup_insert_ne|].
  split; [done|]. by apply insert_registry_ok.
Qed.

Lemma createNew_registers_fresh_context_witness :
  exists r',
    WaterzContext.createNew (registry Example.world1) = Ok (1%Z, true, r') ∧
    WaterzContext.get r' 1 = Some (WaterzContext.mk 1 None None None []) ∧
    WaterzContext._nextId r' = 2%Z.
Proof.
  destruct (createNew_registers_fresh_context (B := Example.backend)
              (registry Example.world1) world1_registry_ok)
    as (r' & H1 & _ & H2 & _ & H3 & _).
  - vm_compute. discriminate.
  - assert (WaterzContext._nextId (registry Example.world1) = 1%Z) as Hn
      by (vm_compute; reflexivity).
    rewrite Hn in *. exists r'. split; [exact H1|]. split; [exact H2|].
    rewrite H3. reflexivity.
Defined.

(** X10: an id that was handed out is not handed out again, freed or
    not: after [free(k)] the next [createNew] registers its context under
    another id, and [get(k)] still finds nothing. *)
Theorem freed_id_is_not_reissued `{B : Backend}
    (r r' : WaterzContext.statics) (k id' : Z) (registered : bool) :
  WaterzContext.registry_ok r ->
  WaterzContext.issued r k ->
  WaterzContext.createNew (WaterzContext.free r k) = Ok (id', registered, r') ->
  id' ≠ k ∧ registered = true ∧ WaterzContext.get r' k = None.
Proof.
  intros Hok Hk H.
  pose proof (free_registry_ok r k Hok) as Hok'.
  assert (WaterzContext._nextId (WaterzContext.free r k) = WaterzContext._nextId r)
    as Hn by (unfold WaterzContext.free; by destruct (WaterzContext.get r k)).
  destruct (decide (WaterzContext._nextId (WaterzContext.free r k)
                    = WaterzContext.INT_MAX)) as [Hmax|Hmax].
  { unfold WaterzContext.createNew in H. by rewrite bool_decide_eq_true_2 in H. }
  rewrite createNew_ok in H by done. injection H as <- <- <-.
  unfold WaterzContext.issued in Hk. rewrite Hn.
  split; [lia|]. split; [done|].
  unfold WaterzContext.get. simpl. rewrite lookup_insert_ne by lia.
  apply get_free.
Qed.

Lemma freed_id_is_not_reissued_witness :
  match WaterzContext.createNew (B := Example.backend)
          (WaterzContext.free (registry Example.world1) 0) with
  | Ok (id', _, r') => id' ≠ 0%Z ∧ WaterzContext.get r' 0 = None
  | Fault _ => False
  end.
Proof.
  destruct (WaterzContext.createNew (B := Example.backend)
              (WaterzContext.free (registry Example.world1) 0))
    as [[[id' registered] r']|f] eqn:E.
  - destruct (freed_id_is_not_reissued (B := Example.backend)
                (registry Example.world1) r' 0 id' registered
                world1_registry_ok) as (H1 & _ & H2).
    + unfold WaterzContext.issued. vm_compute. split; [discriminate|reflexivity].
    + exact E.
    + split; [exact H1|exact H2].
  - assert (Example.fault_of
              (WaterzContext.createNew (B := Example.backend)
                 (WaterzContext.free (registry Example.world1) 0)) = None) as Hf
      by (vm_compute; reflexivity).
    rewrite E in Hf. discriminate.
Defined.

(** X11: [free(k)] touches nothing but the entry of [k]: every other id
    has the context it had, the counter is unchanged, and the registry
    stays in order. *)
Theorem free_keeps_other_contexts `{B : Backend}
    (r : WaterzContext.statics) (k : Z) :
  WaterzContext.registry_ok r ->
  (forall j, j ≠ k ->
     WaterzContext.get (WaterzContext.free r k) j = WaterzContext.get r j) ∧
  WaterzContext._nextId (WaterzContext.free r k) = WaterzContext._nextId r ∧
  WaterzContext.registry_ok (WaterzContext.free r k).
Proof.
  intros Hok. split; [|split].
  - intros j Hj. unfold WaterzContext.free, WaterzContext.get.
    destruct (WaterzContext._contexts r !! k); simpl; [|done].
    by rewrite lookup_delete_ne.
  - unfold WaterzContext.free. by destruct (WaterzContext.get r k).
  - by apply free_registry_ok.
Qed.

Lemma free_keeps_other_contexts_witness :
  WaterzContext.get (WaterzContext.free (registry Example.world1) 5) 0
  = WaterzContext.get (registry Example.world1) 0 ∧
  WaterzContext._nextId (WaterzContext.free (registry Example.world1) 5) = 1%Z.
Proof.
  destruct (free_keeps_other_contexts (B := Example.backend)
              (registry Example.world1) 5 world1_registry_ok) as (H1 & H2 & _).
  split; [apply H1; discriminate|]. rewrite H2. vm_compute. reflexivity.
Defined.

(** X12: when [initialize] returns on a registry in order, the unmerge
    list was supplied, the handle is the id [_nextId] had, the metrics of
    the state are unset, and [get] finds under the handle a context with
    that id, an engine, a view of the caller's array, the ground truth and
    the list as given.  Every other context is as before, and with
    [findFragments] false no array of the caller has changed. *)
Theorem initialize_registers_context `{B : Backend}
    (w w' : World) (width height depth : N) (affs : list AffValue) (p : N)
    (gt : option (list N)) (lo hi : AffValue) (ff : bool)
    (ul : option (list (list (list N)))) (state : WaterzState) :
  WaterzContext.registry_ok (registry w) ->
  initialize w width height depth affs p gt lo hi ff ul = Ok (state, w') ->
  context state = WaterzContext._nextId (registry w) ∧
  metrics state = None ∧
  WaterzContext._nextId (registry w') = (WaterzContext._nextId (registry w) + 1)%Z ∧
  WaterzContext.registry_ok (registry w') ∧
  (forall k, k ≠ context state ->
     WaterzContext.get (registry w') k = WaterzContext.get (registry w) k) ∧
  (exists ctx unmerge,
     WaterzContext.get (registry w') (context state) = Some ctx ∧
     ul = Some unmerge ∧
     WaterzContext.id ctx = context state ∧
     is_Some (WaterzContext.regionMerging ctx) ∧
     WaterzContext.segmentation ctx
     = Some (mkVolume p ((width * height * depth) mod SIZE_MOD)) ∧
     WaterzContext.groundtruth ctx = gt ∧
     WaterzContext.unmergeList ctx = unmerge) ∧
  (ff = false -> heap w' = heap w).
Proof.
  intros Hok H.
  pose proof (initialize_registry_ok _ _ _ _ _ _ _ _ _ _ _ _ _ Hok H) as Hok'.
  destruct (initialize_ok_inv _ _ _ _ _ _ _ _ _ _ _ _ _ Hok H)
    as (h & voxels & sizes & unmerge & rm & Hmax & Hfr & -> & -> & ->).
  simpl in *. unfold WaterzContext.get. simpl.
  split; [done|]. split; [done|]. split; [done|]. split; [done|].
  split; [by intros k Hk; rewrite lookup_insert_ne|].
  split.
  - eexists _, unmerge. rewrite lookup_insert_eq. simpl. eauto 10.
  - intros ->. unfold fragments in Hfr.
    destruct (read_volume _ _); simpl in Hfr; [|done].
    destruct (count_sizes _ _); simpl in Hfr; [|done]. by injection Hfr as <- _ _.
Qed.

Lemma initialize_registers_context_witness :
  match Example.line_initialized with
  | Ok (state, w') =>
      context state = 0%Z ∧
      heap w' = heap Example.world0 ∧
      WaterzContext.unmergeList
        <$> WaterzContext.get (registry w') (context state)
      = Some Example.line_unmerge
  | Fault _ => False
  end.
Proof.
  destruct Example.line_initialized as [[state w']|f] eqn:E.
  - destruct (initialize_registers_context (B := Example.backend)
                Example.world0 w' 3 1 1 Example.line_affinities 100 None
                0%Z 1000%Z false (Some Example.line_unmerge) state
                registry_ok_initial E)
      as (H1 & _ & _ & _ & _ & (ctx & unmerge & Hg & Hu & _ & _ & _ & _ & Hl) & Hh).
    split; [exact H1|]. split; [exact (Hh eq_refl)|].
    rewrite Hg. simpl. rewrite Hl. injection Hu as <-. reflexivity.
  - assert (Example.fault_of Example.line_initialized = None) as Hf
      by (vm_compute; reflexivity).
    rewrite E in Hf. discriminate.
Defined.



(** X14: with [findFragments] false, a supplied segmentation that
    contains the largest 64-bit id makes [maxId + 1] wrap to 0, the sizes
    array is empty, and the first increment indexes out of range. *)
Theorem initialize_largest_id_wraps `{B : Backend}
    (w : World) (width height depth : N) (affs : list AffValue) (p : N)
    (gt : option (list N)) (lo hi : AffValue)
    (ul : option (list (list (list N)))) (S : list N) :
  read_volume (heap w) (mkVolume p ((width * height * depth) mod SIZE_MOD)) = Ok S ->
  Forall (fun s => s < SIZE_MOD) S ->
  SIZE_MOD - 1 ∈ S ->
  initialize w width height depth affs p gt lo hi false ul = Fault OutOfRange.
Proof.
  intros Hread Hall Hin. unfold initialize.
  rewrite (fragments_supplied _ _ _ _ _ _ _ Hread).
  by rewrite count_sizes_largest_id.
Qed.

Lemma initialize_largest_id_wraps_witness :
  initialize (B := Example.backend) MoreExamples.world_max_id 2 1 1
    Example.line_affinities 100 None 0%Z 1000%Z false
    (Some Example.line_unmerge)
  = Fault OutOfRange.
Proof.
  apply (initialize_largest_id_wraps (B := Example.backend)
           MoreExamples.world_max_id 2 1 1 Example.line_affinities 100 None
           0%Z 1000%Z (Some Example.line_unmerge) [1; 18446744073709551615]).
  - vm_compute. reflexivity.
  - repeat constructor.
  - right. left.
Defined.



(** X16: a [mergeUntil] that returns keeps the handle, the counter and
    every other context; its own context keeps its id, its view of the
    segmentation, its ground truth and its unmerge list; no array other
    than the one its segmentation points to has changed; and a registry in
    order stays in order. *)
Theorem mergeUntil_changes_only_its_context `{B : Backend}
    (w w' : World) (state state' : WaterzState) (threshold : ScoreValue)
    (history : list (Merge.t ScoreValue)) :
  mergeUntil w state threshold = Ok (history, state', w') ->
  context state' = context state ∧
  WaterzContext._nextId (registry w') = WaterzContext._nextId (registry w) ∧
  (forall k, k ≠ context state ->
     WaterzContext.get (registry w') k = WaterzContext.get (registry w) k) ∧
  (exists ctx ctx',
     WaterzContext.get (registry w) (context state) = Some ctx ∧
     WaterzContext.get (registry w') (context state) = Some ctx' ∧
     WaterzContext.id ctx' = WaterzContext.id ctx ∧
     WaterzContext.segmentation ctx' = WaterzContext.segmentation ctx ∧
     WaterzContext.groundtruth ctx' = WaterzContext.groundtruth ctx ∧
     WaterzContext.unmergeList ctx' = WaterzContext.unmergeList ctx ∧
     forall p, (forall vol, WaterzContext.segmentation ctx = Some vol -> p ≠ data vol) ->
               heap w' !! p = heap w !! p) ∧
  (WaterzContext.registry_ok (registry w) -> WaterzContext.registry_ok (registry w')).
Proof.
  intros H.
  destruct (mergeUntil_ok_inv _ _ _ _ _ _ H)
    as (ctx & merged & vis & rm & hp & m & Hg & _ & _ & -> & -> & Hheap & _).
  simpl. unfold WaterzContext.get in *. simpl.
  split; [done|]. split; [done|].
  split; [by intros k Hk; rewrite lookup_insert_ne|].
  split.
  - eexists ctx, _. rewrite lookup_insert_eq. simpl.
    repeat split; try done.
    intros p Hp. destruct Hheap as [[_ ->]|(_ & vol & voxels & Hs & _ & ->)]; [done|].
    apply write_volume_other. by apply Hp.
  - intros [H0 Hok]. split; [done|]. simpl.
    apply map_Forall_insert_2; [|done]. by apply Hok in Hg.
Qed.

Lemma mergeUntil_changes_only_its_context_witness :
  match mergeUntil (B := Example.backend) Example.world_later Example.state1 1000%Z with
  | Ok (_, state', w') =>
      context state' = 0%Z ∧ heap w' !! 200 = heap Example.world_later !! 200
  | Fault _ => False
  end.
Proof.
  destruct (mergeUntil (B := Example.backend) Example.world_later Example.state1 1000%Z)
    as [[[history state'] w']|f] eqn:E.
  - destruct (mergeUntil_changes_only_its_context (B := Example.backend)
                _ _ _ _ _ _ E) as (H1 & _ & _ & (ctx & ctx' & Hg & _ & _ & _ & _ & _ & Hp) & _).
    split; [rewrite H1; vm_compute; reflexivity|].
    apply Hp. intros vol Hvol.
    assert (data <$> WaterzContext.segmentation ctx = Some 100) as Hd.
    { assert (data <$> (WaterzContext.get (registry Example.world_later)
                          (context Example.state1)
                        ≫= WaterzContext.segmentation) = Some 100) as Hc
        by (vm_compute; reflexivity).
      rewrite Hg in Hc. exact Hc. }
    rewrite Hvol in Hd. simpl in Hd. injection Hd as ->. discriminate.
  - assert (Example.fault_of
              (mergeUntil (B := Example.backend) Example.world_later
                 Example.state1 1000%Z) = None) as Hf
      by (vm_compute; reflexivity).
    rewrite E in Hf. discriminate.
Defined.

(** X17: a handle that was freed is dangling: [mergeUntil] and
    [getRegionGraph] on it read through the null pointer that [get]
    returns, whatever the engine. *)
Theorem freed_handle_reads_null `{B : Backend}
    (extractRegionGraph : RegionMerging -> list (ScoredEdge.t ScoreValue))
    (w : World) (state : WaterzState) (threshold : ScoreValue) :
  mergeUntil (free w state) state threshold = Fault NullDeref ∧
  getRegionGraph extractRegionGraph (free w state) state = Fault NullDeref.
Proof.
  unfold mergeUntil, getRegionGraph, free. simpl. by rewrite get_free.
Qed.

(** X18: [initialize] takes an unmerge list with an empty coherent group
    without complaint, and every later [mergeUntil] on the handle then
    fails in the constructor of the tracker, reading element 0 of the
    empty group. *)
Theorem empty_group_fails_in_mergeUntil `{B : Backend}
    (w w' : World) (width height depth : N) (affs : list AffValue) (p : N)
    (gt : option (list N)) (lo hi : AffValue) (ff : bool)
    (unmerge : list (list (list N))) (state : WaterzState)
    (threshold : ScoreValue) :
  WaterzContext.registry_ok (registry w) ->
  initialize w width height depth affs p gt lo hi ff (Some unmerge)
  = Ok (state, w') ->
  (exists tuple, tuple ∈ unmerge ∧ [] ∈ tuple) ->
  mergeUntil w' state threshold = Fault OutOfRange.
Proof.
  intros Hok H Hex.
  destruct (initialize_ok_inv _ _ _ _ _ _ _ _ _ _ _ _ _ Hok H)
    as (h & voxels & sizes & unmerge' & rm & _ & _ & [= <-] & -> & ->).
  unfold mergeUntil, WaterzContext.get. simpl. rewrite lookup_insert_eq. simpl.
  unfold run_merging. simpl.
  rewrite (RunsFacts.new_empty_group unmerge Hex).
  rewrite bool_decide_eq_false_2; [done|].
  intros ->. destruct Hex as (tuple & Ht & _). by apply elem_of_nil in Ht.
Qed.

Lemma empty_group_fails_in_mergeUntil_witness :
  match Example.line_initialized_with MoreExamples.line_unmerge_empty_group with
  | Ok (state, w') =>
      mergeUntil (B := Example.backend) w' state 1000%Z = Fault OutOfRange
  | Fault _ => False
  end.
Proof.
  destruct (Example.line_initialized_with MoreExamples.line_unmerge_empty_group)
    as [[state w']|f] eqn:E.
  - apply (empty_group_fails_in_mergeUntil (B := Example.backend)
             Example.world0 w' 3 1 1 Example.line_affinities 100 None
             0%Z 1000%Z false MoreExamples.line_unmerge_empty_group state 1000%Z
             registry_ok_initial E).
    exists [[2]; []]. split; repeat constructor.
  - assert (Example.fault_of
              (Example.line_initialized_with MoreExamples.line_unmerge_empty_group)
            = None) as Hf by (vm_compute; reflexivity).
    rewrite E in Hf. discriminate.
Defined.

(** X19: the metrics of the state are only ever set from a ground truth:
    after [initialize] without one, a [mergeUntil] returns them unset;
    with one, they are [compare_volumes] of the ground truth and the
    segmentation volume as the call leaves it. *)
Theorem metrics_need_ground_truth `{B : Backend}
    (w w1 w2 : World) (width height depth : N) (affs : list AffValue) (p : N)
    (gt : option (list N)) (lo hi : AffValue) (ff : bool)
    (ul : option (list (list (list N)))) (state state' : WaterzState)
    (threshold : ScoreValue) (history : list (Merge.t ScoreValue)) :
  WaterzContext.registry_ok (registry w) ->
  initialize w width height depth affs p gt lo hi ff ul = Ok (state, w1) ->
  mergeUntil w1 state threshold = Ok (history, state', w2) ->
  match gt with
  | None => metrics state' = None
  | Some g =>
      exists v,
        read_volume (heap w2) (mkVolume p ((width * height * depth) mod SIZE_MOD))
        = Ok v ∧
        metrics state' = Some (compare_volumes g v)
  end.
Proof.
  intros Hok Hi Hm.
  destruct (initialize_ok_inv _ _ _ _ _ _ _ _ _ _ _ _ _ Hok Hi)
    as (h & voxels & sizes & unmerge & rm & _ & _ & -> & -> & ->).
  destruct (mergeUntil_ok_inv _ _ _ _ _ _ Hm)
    as (ctx & merged & vis & rm' & hp & m & Hg & _ & _ & -> & -> & _ & Hgt).
  unfold WaterzContext.get in Hg. simpl in Hg. rewrite lookup_insert_eq in Hg.
  injection Hg as <-. simpl in *.
  destruct gt as [g|]; [|done].
  destruct Hgt as (vol & v & [= <-] & Hr & ->). eauto.
Qed.

Lemma metrics_need_ground_truth_witness :
  match Example.line_direct Example.line_unmerge 1000%Z with
  | Ok (_, state', _) => metrics state' = None
  | Fault _ => False
  end.
Proof.
  unfold Example.line_direct.
  destruct (Example.line_initialized_with Example.line_unmerge)
    as [[state w1]|f] eqn:Ei; simpl.
  - destruct (mergeUntil w1 state 1000%Z) as [[[history state'] w2]|f] eqn:Em.
    + exact (metrics_need_ground_truth (B := Example.backend)
               Example.world0 w1 w2 3 1 1 Example.line_affinities 100 None
               0%Z 1000%Z false (Some Example.line_unmerge) state state' 1000%Z
               history registry_ok_initial Ei Em).
    + assert (Example.fault_of (Example.line_direct Example.line_unmerge 1000%Z)
              = None) as Hf by (vm_compute; reflexivity).
      unfold Example.line_direct in Hf. rewrite Ei in Hf. simpl in Hf.
      rewrite Em in Hf. discriminate.
  - assert (Example.fault_of (Example.line_initialized_with Example.line_unmerge)
            = None) as Hf by (vm_compute; reflexivity).
    rewrite Ei in Hf. discriminate.
Defined.

(** X20: [getRegionGraph] after a [mergeUntil] exports the engine as that
    call left it, and the history the call returned is the history its
    visitor collected. *)
Theorem getRegionGraph_sees_last_merging `{B : Backend}
    (extractRegionGraph : RegionMerging -> list (ScoredEdge.t ScoreValue))
    (w w' : World) (state state' : WaterzState) (threshold : ScoreValue)
    (history : list (Merge.t ScoreValue)) :
  mergeUntil w state threshold = Ok (history, state', w') ->
  exists ctx merged vis rm,
    WaterzContext.get (registry w) (context state) = Some ctx ∧
    run_merging ctx threshold = Ok (merged, vis, rm) ∧
    history = _history vis ∧
    getRegionGraph extractRegionGraph w' state' = Ok (extractRegionGraph rm).
Proof.
  intros H.
  destruct (mergeUntil_ok_inv _ _ _ _ _ _ H)
    as (ctx & merged & vis & rm & hp & m & Hg & Hr & -> & -> & -> & _ & _).
  exists ctx, merged, vis, rm. repeat split; try done.
  unfold getRegionGraph, WaterzContext.get. simpl. by rewrite lookup_insert_eq.
Qed.

Lemma getRegionGraph_sees_last_merging_witness :
  match mergeUntil (B := Example.backend) Example.world1 Example.state1 400%Z with
  | Ok (_, state', w') =>
      match getRegionGraph (B := Example.backend) MoreExamples.live_edges w' state' with
      | Ok es => ScoredEdge.score <$> es = [600%Z]
      | Fault _ => False
      end
  | Fault _ => False
  end.
Proof.
  destruct (mergeUntil (B := Example.backend) Example.world1 Example.state1 400%Z)
    as [[[history state'] w']|f] eqn:E.
  - destruct (getRegionGraph_sees_last_merging (B := Example.backend)
                MoreExamples.live_edges _ _ _ _ _ _ E)
      as (ctx & merged & vis & rm & Hg & Hr & _ & ->).
    assert (MoreExamples.rm_scores
              (WaterzContext.get (B := Example.backend) (registry Example.world1)
                 (context Example.state1)
               ≫= fun ctx => MoreExamples.rm_of
                               (run_merging (B := Example.backend) ctx 400%Z))
            = Some [600%Z]) as Hc by (vm_compute; reflexivity).
    rewrite Hg in Hc. simpl in Hc. rewrite Hr in Hc. simpl in Hc.
    by injection Hc as Hc.
  - assert (Example.fault_of
              (mergeUntil (B := Example.backend) Example.world1
                 Example.state1 400%Z) = None) as Hf
      by (vm_compute; reflexivity).
    rewrite E in Hf. discriminate.
Defined.

End FrontendExtras.
